(** * q-analogues: q_int, q_factorial, q_binomial, q_catalan_number, q_jordan

    A shallow embedding of [sage/combinat/q_analogues.py].

    The Python functions are duck-typed over "a value supporting the
    required arithmetic".  The embedding makes that interface explicit
    as the class [Value], and the Sage functions the file imports as the
    class [Sage]; the functions of the source file are written once over
    both and run on three universes of values: the integers (module
    [ZU]), the univariate polynomials over the integers (module [PU])
    and the rational numbers (module [QU]). *)

From Stdlib Require Import ZArith QArith Qround List Lia Bool String Ring.
From Stdlib Require Import Arith ArithRing Factorial.
Import ListNotations.

Local Open Scope Z_scope.

(** ** Outcomes of a call *)

(** The exceptions the source raises or lets through.  [ValueError]
    carries the format string and the values formatted into it. *)
Inductive exn : Type :=
| ValueError (msg : string) (args : list Z)
| TypeError
| ZeroDivisionError.

(** What a call produces: a value, a raised exception, or a value that
    exists in Sage but lies outside the universe at hand (the quotient
    of two integers that is a proper fraction, seen from [Z]). *)
Inductive result (A : Type) : Type :=
| Ok (a : A)
| Raise (e : exn)
| Escapes.

Arguments Ok {A} a.
Arguments Raise {A} e.
Arguments Escapes {A}.

Definition bind {A B : Type} (r : result A) (f : A -> result B) : result B :=
  match r with
  | Ok a => f a
  | Raise e => Raise e
  | Escapes => Escapes
  end.

Notation "x <- r ;; k" := (bind r (fun x => k))
  (at level 61, r at next level, right associativity).

(** Evaluation of a list comprehension whose element expression can fail:
    left to right, stopping at the first failure. *)
Fixpoint mapM {A B : Type} (f : A -> result B) (l : list A) : result (list B) :=
  match l with
  | [] => Ok []
  | a :: l' => b <- f a ;; bs <- mapM f l' ;; Ok (b :: bs)
  end.

(** ** The interface of values *)

(** Arithmetic of the values [q] ranges over. *)
Class Value (R : Type) : Type := {
  (** the integers 0 and 1 as they combine with the values of [R] *)
  zero : R;
  one : R;
  add : R -> R -> R;
  sub : R -> R -> R;
  mul : R -> R -> R;
  opp : R -> R;
  (** [q ** i] for an exponent [i >= 0] *)
  pow : R -> Z -> R;
  (** [q ** i] for an exponent [i < 0] *)
  pow_neg : R -> Z -> result R;
  (** [a // b]; [Raise TypeError] where the type has no floor division *)
  floordiv : R -> R -> result R;
  (** [a / b] *)
  truediv : R -> R -> result R;
  (** [a == b] *)
  eqb : R -> R -> bool
}.

(** The Sage collaborators the source imports and that are not part of
    the file: the default indeterminate, the two classifiers used by the
    choice of the algorithm, and the cyclotomic polynomials. *)
Class Sage (R : Type) : Type := {
  (** [ZZ['q'].gens()[0]], [polygen(ZZ, name='q')] *)
  polygen : R;
  (** [isinstance(q, Polynomial)] *)
  isinstance_Polynomial : R -> bool;
  (** [q in SR] *)
  in_SR : R -> bool;
  (** [cyclotomic_value(d, q)] *)
  cyclotomic_value : Z -> R -> R;
  (** [q.parent().cyclotomic_polynomial(d)] *)
  cyclotomic_polynomial : R -> Z -> R
}.

Declare Scope value_scope.
Delimit Scope value_scope with V.
Infix "+" := add : value_scope.
Infix "-" := sub : value_scope.
Infix "*" := mul : value_scope.
Notation "- x" := (opp x) : value_scope.
Infix "**" := pow (at level 30, right associativity) : value_scope.
Infix "==" := eqb (at level 70, no associativity) : value_scope.

(** ** Python built-ins *)

(** [range(a, b)] *)
Definition range (a b : Z) : list Z :=
  map (fun i => a + Z.of_nat i) (seq 0 (Z.to_nat (b - a))).

(** [range(n-1, -1, -1)] for a length [n] *)
Definition range_down (n : nat) : list nat := rev (seq 0 n).

(** [floor(n/d)] with [n/d] the rational quotient *)
Definition floor_div (n d : Z) : Z := Qfloor (inject_Z n / inject_Z d).

Section Functions.

Context {R : Type} {V : Value R} {SG : Sage R}.
Local Open Scope value_scope.

(** [sum(...)]: accumulation from the integer 0, left to right. *)
Definition sum (l : list R) : R := fold_left add l zero.

(** Modelled from the spec: [prod] of [sage.misc.misc], which is not part
    of the source file; the product of the elements, 1 for none. *)
Definition prod (l : list R) : R := fold_left mul l one.

(** ** q_int *)

Definition q_int (n : Z) (p : option R) : result R :=
  (* n in ZZ: the argument is an integer by its type *)
  let p := match p with None => polygen | Some p => p end in
  if (n >=? 0)%Z then
    Ok (sum (map (fun i => p ** i) (range 0 n)))
  else
    pn <- pow_neg p n ;;
    Ok ((- pn) * sum (map (fun i => p ** i) (range 0 (- n)%Z))).

(** ** q_factorial *)

Definition q_factorial (n : Z) (p : option R) : result R :=
  if (n >=? 0)%Z then
    l <- mapM (fun i => q_int i p) (range 1 (n + 1)%Z) ;;
    Ok (prod l)
  else
    Raise (ValueError "Argument (%s) must be a nonnegative integer." [n]).

(** ** q_binomial *)

Inductive algo : Type := naive | cyclo_polynomial | cyclo_generic.

(** The polynomiality test: the value of [q] used from here on and
    [is_polynomial]. *)
Definition polynomiality_test (q : option R) : R * bool :=
  match q with
  | None => (polygen, true)
  | Some q => (q, isinstance_Polynomial q)
  end.

(** The heuristic choice of the fastest algorithm; [n/4] is the rational
    quotient. *)
Definition choose_algo (n k : Z) (q : R) (is_polynomial : bool) : algo :=
  if is_polynomial then
    if (n <=? 70)%Z || Qle_bool (inject_Z k) (inject_Z n / inject_Z 4)
    then naive else cyclo_polynomial
  else if in_SR q then cyclo_generic
  else naive.

(** The index set of both cyclotomic algorithms. *)
Definition cyclo_indices (n k : Z) : list Z :=
  filter (fun d => negb (floor_div n d =? floor_div k d + floor_div (n - k) d)%Z)
         (range 2 (n + 1)).

Definition denomin (k : Z) (q : R) : R :=
  prod (map (fun i => one - q ** i) (range 1 (k + 1))).

Definition numerat (n k : Z) (q : R) : R :=
  prod (map (fun i => one - q ** i) (range (n - k + 1) (n + 1))).

(** The quotient of the naive algorithm: [numerat//denomin], and
    [numerat/denomin] when that raises [TypeError]. *)
Definition naive_quotient (n k : Z) (q : R) : result R :=
  match floordiv (numerat n k q) (denomin k q) with
  | Raise TypeError => truediv (numerat n k q) (denomin k q)
  | r => r
  end.

Definition run_cyclo_generic (n k : Z) (q : R) : result R :=
  Ok (prod (map (fun d => cyclotomic_value d q) (cyclo_indices n k))).

Definition run_cyclo_polynomial (n k : Z) (q : R) : result R :=
  Ok (prod (map (fun d => cyclotomic_polynomial q d) (cyclo_indices n k))).

(** The algorithms, entered with the chosen [algo]; the naive one hands
    over to the generic cyclotomic one when its denominator is zero. *)
Definition run_algo (a : algo) (n k : Z) (q : R) : result R :=
  match a with
  | naive =>
      if denomin k q == zero then run_cyclo_generic n k q
      else naive_quotient n k q
  | cyclo_generic => run_cyclo_generic n k q
  | cyclo_polynomial => run_cyclo_polynomial n k q
  end.

Definition q_binomial (n k : Z) (q : option R) : result R :=
  (* sanity checks; n in ZZ and k in ZZ hold by the type of n and k *)
  if (n <? 0)%Z then Raise (ValueError "n must be nonnegative" [])
  else if negb ((0 <=? k)%Z && (k <=? n)%Z) then Ok zero
  else
    let k := Z.min (n - k) k in
    let '(q, is_polynomial) := polynomiality_test q in
    run_algo (choose_algo n k q is_polynomial) n k q.

Definition gaussian_binomial := q_binomial.

(** ** q_catalan_number *)

Definition q_catalan_number (n : Z) (p : option R) : result R :=
  if (n >=? 0)%Z then
    num <- mapM (fun j => q_int j p) (range (n + 2) (2 * n + 1)%Z) ;;
    den <- mapM (fun j => q_int j p) (range 2 (n + 1)%Z) ;;
    truediv (prod num) (prod den)
  else
    Raise (ValueError "Argument (%s) must be a nonnegative integer." [n]).

(** ** q_jordan *)

(** The list of parts of a [Partition] object. *)
Definition partition := list Z.

Fixpoint weakly_decreasing (l : list Z) : bool :=
  match l with
  | [] => true
  | a :: l' =>
      match l' with
      | [] => (0 <=? a)%Z
      | b :: _ => (0 <=? a)%Z && (b <=? a)%Z && weakly_decreasing l'
      end
  end.

Fixpoint before_first_zero (l : list Z) : list Z :=
  match l with
  | [] => []
  | a :: l' => if (a =? 0)%Z then [] else a :: before_first_zero l'
  end.

(** Modelled from the spec: the constructor [Partition] of
    [sage/combinat/partition.py], which is not part of the source file.
    A weakly decreasing list of non-negative integers is accepted and
    its zero parts are dropped; any other list is refused. *)
Definition Partition (mu : list Z) : result partition :=
  if weakly_decreasing mu then Ok (before_first_zero mu)
  else Raise (ValueError "%s is not a valid partition" mu).

(** [tp[i] -= 1] on a copy of the list *)
Fixpoint decrement (tp : list Z) (i : nat) : list Z :=
  match tp, i with
  | [], _ => []
  | a :: l, O => (a - 1)%Z :: l
  | a :: l, S i' => a :: decrement l i'
  end.

(** One pass of the body of the [for] loop, at index [i], on the loop
    state [(tj, res)]; [rec] is the recursive call. *)
Definition q_jordan_step (rec : partition -> option (result R))
    (t : partition) (q : R) (st : option (result (Z * R))) (i : nat)
  : option (result (Z * R)) :=
  match st with
  | Some (Ok (tj, res)) =>
      let ti := nth i t 0%Z in
      if (ti >? tj)%Z then
        match Partition (decrement t i) with
        | Ok tp =>
            match rec tp with
            | None => None
            | Some r =>
                Some (rj <- r ;;
                      c <- floordiv (q ** ti - q ** tj) (q - one) ;;
                      Ok (ti, res + rj * c))
            end
        | Raise e => Some (Raise e)
        | Escapes => Some Escapes
        end
      else Some (Ok (tj, res))
  | _ => st
  end.

(** [q_jordan] with a bound on the depth of the recursion; [None] when
    the bound is reached.  The decorator [cached_function] stores results
    of a function without effects and is left out. *)
Fixpoint q_jordan_rec (fuel : nat) (t : partition) (q : R)
  : option (result R) :=
  match fuel with
  | O => None
  | S fuel' =>
      if q == one then Some (Raise (ValueError "q must not be equal to 1" []))
      else if (List.length t =? 0)%nat then Some (Ok one)
      else
        match fold_left (q_jordan_step (fun tp => q_jordan_rec fuel' tp q) t q)
                        (range_down (List.length t)) (Some (Ok (0%Z, zero))) with
        | None => None
        | Some r => Some (st <- r ;; Ok (snd st))
        end
  end.

(** The total size of a list of parts, the bound of the recursion. *)
Definition size (t : partition) : nat :=
  fold_right (fun a s => (Z.to_nat a + s)%nat) O t.

Definition q_jordan (t : partition) (q : R) : option (result R) :=
  q_jordan_rec (S (size t)) t q.

End Functions.

(** ** qt_catalan_number *)

(** A Python dictionary with pairs of integers as keys and integers as
    values: the entries in the order of their first insertion, one entry
    per key. *)
Definition dict := list ((Z * Z) * Z).

Definition key_eqb (a b : Z * Z) : bool :=
  (fst a =? fst b) && (snd a =? snd b).

(** [d.get(key, default)] *)
Fixpoint dict_get (d : dict) (key : Z * Z) (default : Z) : Z :=
  match d with
  | [] => default
  | (k, v) :: d' => if key_eqb k key then v else dict_get d' key default
  end.

(** [d[key] = v] *)
Fixpoint dict_set (d : dict) (key : Z * Z) (v : Z) : dict :=
  match d with
  | [] => [(key, v)]
  | (k, x) :: d' =>
      if key_eqb k key then (k, v) :: d' else (k, x) :: dict_set d' key v
  end.

Section QtCatalan.

(** The Dyck words, their enumeration by semilength and their two
    statistics come from [dyck_word.py], which is not part of the source
    file. *)
Variable DyckWord : Type.
Variable DyckWords : Z -> list DyckWord.
Variable area : DyckWord -> Z.
Variable bounce : DyckWord -> Z.

(** One pass of the body of the [for] loop. *)
Definition qt_tally (d : dict) (dw : DyckWord) : dict :=
  let tup := (area dw, bounce dw) in
  dict_set d tup (dict_get d tup 0 + 1).

(** The polynomial [ZZqt(d)] is given by the dictionary [d] of its
    coefficients: the coefficient of [q^a t^b] is [d.get((a, b), 0)]. *)
Definition qt_catalan_number (n : Z) : result dict :=
  if n >=? 0 then Ok (fold_left qt_tally (DyckWords n) [])
  else Raise (ValueError "Argument (%s) must be a nonnegative integer." [n]).

End QtCatalan.

(** ** Univariate polynomials over the integers *)

Module Poly.

(** Coefficients from the constant one upwards, the last one non-zero. *)
Definition poly := list Z.

Fixpoint norm (p : list Z) : poly :=
  match p with
  | [] => []
  | a :: p' =>
      match norm p' with
      | [] => if a =? 0 then [] else [a]
      | r => a :: r
      end
  end.

Definition const (c : Z) : poly := norm [c].

Definition X : poly := [0; 1].

Fixpoint add_raw (p q : list Z) : list Z :=
  match p, q with
  | [], _ => q
  | _, [] => p
  | a :: p', b :: q' => (a + b) :: add_raw p' q'
  end.

Definition scale (c : Z) (p : list Z) : list Z := map (Z.mul c) p.

Fixpoint mul_raw (p q : list Z) : list Z :=
  match p with
  | [] => []
  | a :: p' => add_raw (scale a q) (0 :: mul_raw p' q)
  end.

Definition padd (p q : poly) : poly := norm (add_raw p q).
Definition popp (p : poly) : poly := map Z.opp p.
Definition psub (p q : poly) : poly := norm (add_raw p (popp q)).
Definition pmul (p q : poly) : poly := norm (mul_raw p q).

Fixpoint pow_nat (p : poly) (n : nat) : poly :=
  match n with
  | O => const 1
  | S n' => pmul p (pow_nat p n')
  end.

Definition ppow (p : poly) (i : Z) : poly := pow_nat p (Z.to_nat i).

Fixpoint peqb (p q : poly) : bool :=
  match p, q with
  | [], [] => true
  | a :: p', b :: q' => (a =? b) && peqb p' q'
  | _, _ => false
  end.

(** The value of [p] at the integer [z]. *)
Definition eval (p : poly) (z : Z) : Z :=
  fold_right (fun a r => a + z * r) 0 p.

(** The polynomial [p(q)]. *)
Definition compose (p q : poly) : poly :=
  fold_right (fun a r => padd (const a) (pmul q r)) [] p.

(** Long division, on coefficient lists written from the leading
    coefficient downwards: [a - c * b], the two aligned at their heads. *)
Fixpoint sub_scaled (a b : list Z) (c : Z) : list Z :=
  match a, b with
  | x :: a', y :: b' => (x - c * y) :: sub_scaled a' b' c
  | _, [] => a
  | [], _ => []
  end.

Fixpoint div_loop (steps : nat) (a b : list Z) (lead : Z) : list Z :=
  match steps with
  | O => []
  | S steps' =>
      match a with
      | [] => []
      | x :: _ =>
          let c := x / lead in
          c :: div_loop steps' (tl (sub_scaled a b c)) b lead
      end
  end.

(** The quotient of the division of [a] by [b]; [None] when [b] is zero. *)
Definition pdiv (a b : poly) : option poly :=
  match rev b with
  | [] => None
  | lead :: _ =>
      if (List.length a <? List.length b)%nat then Some []
      else Some (norm (rev (div_loop (Datatypes.S (List.length a - List.length b))
                                     (rev a) (rev b) lead)))
  end.

(** [x^n - 1] for [n >= 1] *)
Definition x_pow_minus_one (n : nat) : poly :=
  match n with
  | O => []
  | Datatypes.S m => (-1) :: repeat 0 m ++ [1]
  end.

(** The cyclotomic polynomials of index 1 to [n]: the one of index [m]
    is [x^m - 1] divided by those of the proper divisors of [m]. *)
Fixpoint cyclotomic_table (n : nat) : list poly :=
  match n with
  | O => []
  | Datatypes.S m =>
      let tb := cyclotomic_table m in
      let proper :=
        filter (fun e => (Datatypes.S m mod Datatypes.S e =? 0)%nat) (seq 0 m) in
      let den := fold_left (fun acc e => pmul acc (nth e tb [])) proper (const 1) in
      tb ++ [match pdiv (x_pow_minus_one (Datatypes.S m)) den with
             | Some c => c
             | None => []
             end]
  end.

(** Modelled from the spec: the [d]-th cyclotomic polynomial, which
    [sage.rings.polynomial.cyclotomic] and the polynomial rings provide
    and the source file does not; defined for [d >= 1]. *)
Definition cyclotomic (d : Z) : poly :=
  last (cyclotomic_table (Z.to_nat d)) [].

End Poly.

(** ** The universe of integers *)

Module ZU.

Definition floordiv_int (a b : Z) : result Z :=
  if b =? 0 then Raise ZeroDivisionError else Ok (a / b).

(** The quotient of two integers is a rational number; it is a value of
    this universe when it is an integer. *)
Definition truediv_int (a b : Z) : result Z :=
  if b =? 0 then Raise ZeroDivisionError
  else if a mod b =? 0 then Ok (a / b) else Escapes.

(** A negative power of an integer is an integer for the units only. *)
Definition pow_neg_int (q i : Z) : result Z :=
  if q =? 0 then Raise ZeroDivisionError
  else if q =? 1 then Ok 1
  else if q =? -1 then Ok (if Z.even i then 1 else -1)
  else Escapes.

#[global] Instance value : Value Z := {|
  zero := 0;
  one := 1;
  add := Z.add;
  sub := Z.sub;
  mul := Z.mul;
  opp := Z.opp;
  pow := Z.pow;
  pow_neg := pow_neg_int;
  floordiv := floordiv_int;
  truediv := truediv_int;
  eqb := Z.eqb
|}.

(** Modelled from the spec: [cyclotomic_value(d, q)], the value of the
    [d]-th cyclotomic polynomial at [q]. *)
Definition cyclotomic_value_int (d q : Z) : Z := Poly.eval (Poly.cyclotomic d) q.

(** The collaborators as they answer on integers: an integer is not a
    [Polynomial]; [sr] is the answer of [q in SR].  The default
    indeterminate is not an integer: [g] stands for it, so that a call
    without [q] computes the value at [g] of what Sage returns, and
    [cyclotomic_polynomial], which no call on integers reaches, is
    evaluated at [g] likewise. *)
Definition sage (sr : bool) (g : Z) : Sage Z := {|
  polygen := g;
  isinstance_Polynomial := fun _ => false;
  in_SR := fun _ => sr;
  cyclotomic_value := cyclotomic_value_int;
  cyclotomic_polynomial := fun _ d => cyclotomic_value_int d g
|}.

End ZU.

(** ** The universe of polynomials in one indeterminate over the integers *)

Module PU.

Import Poly.

Definition floordiv_poly (a b : poly) : result poly :=
  match pdiv a b with
  | Some c => Ok c
  | None => Raise ZeroDivisionError
  end.

(** The quotient of two polynomials lies in the fraction field; it is a
    value of this universe when the division is exact. *)
Definition truediv_poly (a b : poly) : result poly :=
  match pdiv a b with
  | Some c => if peqb (pmul b c) a then Ok c else Escapes
  | None => Raise ZeroDivisionError
  end.

(** A negative power of a polynomial is a polynomial for the units only. *)
Definition pow_neg_poly (q : poly) (i : Z) : result poly :=
  match q with
  | [] => Raise ZeroDivisionError
  | [1] => Ok (const 1)
  | [-1] => Ok (const (if Z.even i then 1 else -1))
  | _ => Escapes
  end.

#[global] Instance value : Value poly := {|
  zero := const 0;
  one := const 1;
  add := padd;
  sub := psub;
  mul := pmul;
  opp := popp;
  pow := ppow;
  pow_neg := pow_neg_poly;
  floordiv := floordiv_poly;
  truediv := truediv_poly;
  eqb := peqb
|}.

(** Every value of this universe is a [Polynomial] of [ZZ['q']], whose
    indeterminate is [X]. *)
#[global] Instance sage : Sage poly := {|
  polygen := X;
  isinstance_Polynomial := fun _ => true;
  in_SR := fun _ => false;
  cyclotomic_value := fun d q => compose (cyclotomic d) q;
  cyclotomic_polynomial := fun _ d => cyclotomic d
|}.

End PU.

(** ** The universe of rational numbers *)

(** Rational numbers under Python's arithmetic, as [fractions.Fraction]
    has it and [float] has it on the values it represents exactly: [/] is
    the quotient and [//] is its floor.  Values are kept in lowest
    terms. *)
Module QU.

Definition floordiv_rat (a b : Q) : result Q :=
  if Qeq_bool b 0 then Raise ZeroDivisionError
  else Ok (inject_Z (Qfloor (a / b))).

Definition truediv_rat (a b : Q) : result Q :=
  if Qeq_bool b 0 then Raise ZeroDivisionError else Ok (Qred (a / b)).

Definition pow_neg_rat (q : Q) (i : Z) : result Q :=
  if Qeq_bool q 0 then Raise ZeroDivisionError else Ok (Qred (Qpower q i)).

#[global] Instance value : Value Q := {|
  zero := inject_Z 0;
  one := inject_Z 1;
  add := fun a b => Qred (a + b);
  sub := fun a b => Qred (a - b);
  mul := fun a b => Qred (a * b);
  opp := fun a => Qred (- a);
  pow := fun q i => Qred (Qpower q i);
  pow_neg := pow_neg_rat;
  floordiv := floordiv_rat;
  truediv := truediv_rat;
  eqb := Qeq_bool
|}.

(** Modelled from the spec: [cyclotomic_value(d, q)], the value of the
    [d]-th cyclotomic polynomial at [q]. *)
Definition cyclotomic_value_rat (d : Z) (q : Q) : Q :=
  fold_right (fun a r => Qred (inject_Z a + q * r)) (inject_Z 0)
             (Poly.cyclotomic d).

(** The collaborators as they answer on rational numbers: a rational
    number is not a [Polynomial]; [sr] is the answer of [q in SR], and
    [g] stands for the default indeterminate, as in [ZU.sage]. *)
Definition sage (sr : bool) (g : Q) : Sage Q := {|
  polygen := g;
  isinstance_Polynomial := fun _ => false;
  in_SR := fun _ => sr;
  cyclotomic_value := cyclotomic_value_rat;
  cyclotomic_polynomial := fun _ d => cyclotomic_value_rat d g
|}.

End QU.

(** ** Reference notions the properties are stated with *)

(** The ordinary binomial coefficient, by Pascal's rule. *)
Fixpoint binomial (n k : nat) : nat :=
  match n, k with
  | _, O => 1
  | O, S _ => 0
  | S n', S k' => binomial n' k' + binomial n' (S k')
  end.

(** The ordinary Catalan number, [C(2n, n) / (n + 1)]. *)
Definition catalan (n : nat) : nat := Nat.div (binomial (2 * n) n) (n + 1).

(** The laws of the arithmetic the algebraic properties rest on: a
    commutative ring whose [==] decides equality, whose powers are
    iterated products, and whose floor division is exact on multiples. *)
Class ValueLaws (R : Type) {V : Value R} : Prop := {
  value_ring : ring_theory zero one add mul sub opp (@eq R);
  eqb_eq : forall a b : R, eqb a b = true <-> a = b;
  pow_0 : forall q : R, pow q 0 = one;
  pow_succ : forall (q : R) (i : Z), 0 <= i -> pow q (i + 1) = mul q (pow q i);
  floordiv_exact : forall b c : R, b <> zero -> floordiv (mul b c) b = Ok c
}.

Section Contract.

Context {R : Type} {V : Value R} {SG : Sage R}.

(** The geometric sum [1 + q + ... + q^(i-1)], the value of [q_int] at a
    non-negative [i]. *)
Definition geometric_sum (q : R) (i : Z) : R :=
  sum (map (fun j => pow q j) (range 0 i)).

(** The divisors of [i] from 2 on. *)
Definition divisors_from_2 (i : Z) : list Z :=
  filter (fun d => i mod d =? 0) (range 2 (i + 1)).

(** What the source relies on from [cyclotomic_value], up to index [n] and
    at the point [q]: since [x^i - 1] is the product of the cyclotomic
    polynomials of the divisors of [i], the first of which is [x - 1],
    those of the divisors from 2 on multiply to [1 + x + ... + x^(i-1)]. *)
Definition cyclotomic_contract (n : Z) (q : R) : Prop :=
  forall i : Z, 1 <= i <= n ->
    prod (map (fun d => cyclotomic_value d q) (divisors_from_2 i))
    = geometric_sum q i.

End Contract.

(** The value [q_int] computes with: [p], or the default indeterminate. *)
Definition variable_of {R : Type} {SG : Sage R} (p : option R) : R :=
  match p with None => polygen | Some p => p end.

(** The invariant of the loop of [q_jordan]: [tj >= 0]. *)
Definition state_ok {R : Type} (st : option (result (Z * R))) : Prop :=
  match st with
  | Some (Ok (tj, _)) => 0 <= tj
  | _ => True
  end.

(** The product of the powers [phi d ** e d] for [d] in [l]. *)
Definition weighted {R : Type} {V : Value R} (phi : Z -> R) (e : Z -> Z)
    (l : list Z) : R :=
  prod (map (fun d => pow (phi d) (e d)) l).

(** The number of elements of [l] that pass the test [f]. *)
Definition count {A : Type} (f : A -> bool) (l : list A) : nat :=
  List.length (filter f l).

(** The sum of the values stored in a dictionary. *)
Definition dict_total (d : dict) : Z :=
  fold_right (fun kv s => snd kv + s) 0 d.

(** The same on integers, as a test. *)
Definition cyclotomic_contractb (SG : Sage Z) (n q : Z) : bool :=
  forallb (fun i =>
             @prod Z ZU.value (map (fun d => cyclotomic_value d q) (divisors_from_2 i))
             =? @geometric_sum Z ZU.value q i)
          (range 1 (n + 1)).

(** * Properties *)

(** ** Ranges and floors *)

Lemma range_nil (a b : Z) : b <= a -> range a b = [].
Proof.
  intros H. unfold range.
  replace (Z.to_nat (b - a)) with O by lia. reflexivity.
Qed.

Lemma range_snoc (a b : Z) : a <= b -> range a (b + 1) = range a b ++ [b].
Proof.
  intros H. unfold range.
  replace (Z.to_nat (b + 1 - a)) with (Z.to_nat (b - a) + 1)%nat by lia.
  rewrite seq_app, map_app. simpl. f_equal. f_equal. lia.
Qed.

Lemma range_cons (a b : Z) : a < b -> range a b = a :: range (a + 1) b.
Proof.
  intros H. unfold range.
  replace (Z.to_nat (b - a)) with (S (Z.to_nat (b - (a + 1)))) by lia.
  simpl. f_equal.
  - lia.
  - rewrite <- seq_shift, map_map. apply map_ext. intros i. lia.
Qed.

Lemma in_range (a b x : Z) : In x (range a b) <-> a <= x < b.
Proof.
  unfold range. rewrite in_map_iff. split.
  - intros [i [Hi Hin]]. apply in_seq in Hin. lia.
  - intros H. exists (Z.to_nat (x - a)). split; [lia|].
    apply in_seq. lia.
Qed.

Lemma length_range (a b : Z) : List.length (range a b) = Z.to_nat (b - a).
Proof. unfold range. rewrite length_map, length_seq. reflexivity. Qed.

Lemma range_app (a b c : Z) : a <= b <= c -> range a c = range a b ++ range b c.
Proof.
  intros [Hab Hbc].
  replace c with (b + Z.of_nat (Z.to_nat (c - b))) by lia.
  generalize (Z.to_nat (c - b)) as m. induction m as [|m IH].
  - rewrite Z.add_0_r, (range_nil b b), app_nil_r by lia. reflexivity.
  - rewrite Nat2Z.inj_succ.
    replace (b + Z.succ (Z.of_nat m)) with (b + Z.of_nat m + 1) by lia.
    rewrite !range_snoc by lia. rewrite IH, app_assoc. reflexivity.
Qed.

(** The floor of the rational quotient is the integer quotient. *)
Lemma floor_div_pos (n d : Z) : 0 < d -> floor_div n d = n / d.
Proof.
  intros H. destruct d as [|p|p]; try lia.
  unfold floor_div, Qdiv, Qmult, Qinv, inject_Z. simpl.
  rewrite Z.mul_1_r. reflexivity.
Qed.

(** The comparison with the rational [n/4] is the comparison of [4k]
    with [n]. *)
Lemma quarter_test (n k : Z) :
  Qle_bool (inject_Z k) (inject_Z n / inject_Z 4) = (4 * k <=? n).
Proof.
  unfold Qle_bool, Qdiv, Qmult, Qinv, inject_Z. cbn [Qnum Qden].
  change (Z.pos (1 * 4)) with 4. change (Z.pos 1) with 1.
  apply Bool.eq_true_iff_eq. rewrite !Z.leb_le. lia.
Qed.

Lemma filter_none {A : Type} (f : A -> bool) (l : list A) :
  (forall x, In x l -> f x = false) -> filter f l = [].
Proof.
  induction l as [|a l IH]; intros H; simpl.
  - reflexivity.
  - rewrite (H a) by (left; reflexivity).
    apply IH. intros x Hx. apply H. right. exact Hx.
Qed.

(** With [k = 0] no index passes the test of the cyclotomic algorithms. *)
Lemma cyclo_indices_0 (n : Z) : cyclo_indices n 0 = [].
Proof.
  unfold cyclo_indices. apply filter_none. intros d Hd.
  apply in_range in Hd.
  rewrite !floor_div_pos by lia.
  rewrite Z.div_0_l, Z.sub_0_r, Z.add_0_l by lia.
  rewrite Z.eqb_refl. reflexivity.
Qed.

(** ** The control flow of q_binomial *)

Section ControlFlow.

Context {R : Type} {V : Value R} {SG : Sage R}.

(** Past the sanity checks, [q_binomial] runs the chosen algorithm on the
    normalized [k]. *)
Lemma q_binomial_in_range (n k : Z) (q : option R) :
  0 <= n -> 0 <= k <= n ->
  q_binomial n k q
  = run_algo (choose_algo n (Z.min (n - k) k) (fst (polynomiality_test q))
                          (snd (polynomiality_test q)))
             n (Z.min (n - k) k) (fst (polynomiality_test q)).
Proof.
  intros Hn Hk. unfold q_binomial.
  destruct (Z.ltb_spec n 0) as [H|_]; [lia|].
  destruct (Z.leb_spec 0 k) as [_|H]; [|lia].
  destruct (Z.leb_spec k n) as [_|H]; [|lia].
  simpl. destruct (polynomiality_test q) as [q' b]. reflexivity.
Qed.

(** C3: [q_binomial(n, k, q) = q_binomial(n, n-k, q)]; the two calls
    agree for all integers [n] and [k], so in particular for
    [n >= 0] and [0 <= k <= n], and for every [q], the default one
    included. *)
Theorem q_binomial_symmetry (n k : Z) (q : option R) :
  q_binomial n k q = q_binomial n (n - k) q.
Proof.
  unfold q_binomial.
  destruct (Z.ltb_spec n 0) as [H|Hn]; [reflexivity|].
  replace ((0 <=? n - k) && (n - k <=? n)) with ((0 <=? k) && (k <=? n)).
  - replace (Z.min (n - (n - k)) (n - k)) with (Z.min (n - k) k).
    + reflexivity.
    + rewrite Z.min_comm. f_equal. lia.
  - destruct (Z.leb_spec 0 k), (Z.leb_spec k n),
      (Z.leb_spec 0 (n - k)), (Z.leb_spec (n - k) n); simpl; try reflexivity; lia.
Qed.

(** C4: for [n >= 0] and [k < 0] or [k > n], [q_binomial(n, k, q)]
    returns the zero value, for every [q] and whatever the arithmetic of
    the values and the collaborators do: no exception is raised and none
    of them is consulted. *)
Theorem q_binomial_outside_range (n k : Z) (q : option R) :
  0 <= n -> k < 0 \/ n < k -> q_binomial n k q = Ok zero.
Proof.
  intros Hn Hk. unfold q_binomial.
  destruct (Z.ltb_spec n 0) as [H|_]; [lia|].
  destruct (Z.leb_spec 0 k) as [H0|H0]; simpl.
  - destruct (Z.leb_spec k n) as [H1|H1]; [lia|reflexivity].
  - reflexivity.
Qed.

(** C5: for [n >= 0] and [0 <= k <= n], when [q] is a polynomial (the
    default [q] included), the naive algorithm is chosen exactly when
    [n <= 70] or [k' <= n/4], with [k' = min(n-k, k)] and [n/4] the
    rational quotient; the cyclotomic-polynomial algorithm is chosen
    otherwise, and [q_binomial] runs the chosen one. *)
Theorem q_binomial_polynomial_choice (n k : Z) (q : option R) :
  0 <= n -> 0 <= k <= n -> snd (polynomiality_test q) = true ->
  let k' := Z.min (n - k) k in
  let q' := fst (polynomiality_test q) in
  (n <= 70 \/ (inject_Z k' <= inject_Z n / inject_Z 4)%Q ->
   choose_algo n k' q' true = naive /\
   q_binomial n k q = run_algo naive n k' q') /\
  (~ (n <= 70 \/ (inject_Z k' <= inject_Z n / inject_Z 4)%Q) ->
   choose_algo n k' q' true = cyclo_polynomial /\
   q_binomial n k q = run_algo cyclo_polynomial n k' q').
Proof.
  intros Hn Hk Hpoly k' q'.
  pose proof (q_binomial_in_range n k q Hn Hk) as Hrun.
  rewrite Hpoly in Hrun. fold k' q' in Hrun.
  assert (Hchoice : choose_algo n k' q' true
                    = if (n <=? 70) || Qle_bool (inject_Z k') (inject_Z n / inject_Z 4)
                      then naive else cyclo_polynomial) by reflexivity.
  split; intros Hcond.
  - assert (Hb : (n <=? 70) || Qle_bool (inject_Z k') (inject_Z n / inject_Z 4) = true).
    { apply orb_true_iff. destruct Hcond as [H|H].
      - left. apply Z.leb_le. exact H.
      - right. apply Qle_bool_iff. exact H. }
    rewrite Hb in Hchoice. rewrite Hrun, Hchoice. split; reflexivity.
  - assert (Hb : (n <=? 70) || Qle_bool (inject_Z k') (inject_Z n / inject_Z 4) = false).
    { apply not_true_is_false. intros Ht. apply Hcond.
      apply orb_true_iff in Ht. destruct Ht as [H|H].
      - left. apply Z.leb_le. exact H.
      - right. apply Qle_bool_iff. exact H. }
    rewrite Hb in Hchoice. rewrite Hrun, Hchoice. split; reflexivity.
Qed.

(** C10: for [n >= 0] and every [q], [q_binomial(n, 0, q)] and
    [q_binomial(n, n, q)] are 1.  The normalized [k] is 0, the
    denominator and the numerator of the naive algorithm are empty
    products, the denominator is not zero, so the naive algorithm never
    hands over to the cyclotomic one.  The hypotheses are the facts
    [1 == 0] is false and [1 // 1] is 1 about the integer 1 an empty
    product is. *)
Theorem q_binomial_extreme_k (n : Z) (q : option R) :
  0 <= n -> eqb one zero = false -> floordiv one one = Ok one ->
  let q' := fst (polynomiality_test q) in
  q_binomial n 0 q = Ok one /\ q_binomial n n q = Ok one /\
  Z.min (n - 0) 0 = 0 /\ Z.min (n - n) n = 0 /\
  denomin 0 q' = one /\ numerat n 0 q' = one /\
  eqb (denomin 0 q') zero = false /\
  run_algo naive n 0 q' = naive_quotient n 0 q' /\
  run_algo naive n 0 q' = Ok one /\ run_algo cyclo_generic n 0 q' = Ok one.
Proof.
  intros Hn H10 H11 q'.
  assert (Hden : denomin 0 q' = one).
  { unfold denomin. rewrite range_nil by lia. reflexivity. }
  assert (Hnum : numerat n 0 q' = one).
  { unfold numerat. rewrite range_nil by lia. reflexivity. }
  assert (Hnaive : run_algo naive n 0 q' = Ok one).
  { unfold run_algo, naive_quotient. rewrite Hden, Hnum, H10, H11. reflexivity. }
  assert (Hgen : run_cyclo_generic n 0 q' = Ok one).
  { unfold run_cyclo_generic. rewrite cyclo_indices_0. reflexivity. }
  assert (Hchoice : forall b, choose_algo n 0 q' b <> cyclo_polynomial).
  { intros b. unfold choose_algo. rewrite quarter_test.
    destruct b.
    - replace (4 * 0 <=? n) with true by (symmetry; apply Z.leb_le; lia).
      rewrite orb_true_r. discriminate.
    - destruct (in_SR q'); discriminate. }
  assert (Hrun : run_algo (choose_algo n 0 q' (snd (polynomiality_test q))) n 0 q'
                 = Ok one).
  { specialize (Hchoice (snd (polynomiality_test q))).
    destruct (choose_algo n 0 q' (snd (polynomiality_test q)));
      [exact Hnaive | contradiction | exact Hgen]. }
  assert (Hmin0 : Z.min (n - 0) 0 = 0) by lia.
  assert (Hminn : Z.min (n - n) n = 0) by lia.
  assert (Hzero : eqb (denomin 0 q') zero = false) by (rewrite Hden; exact H10).
  refine (conj _ (conj _ (conj Hmin0 (conj Hminn (conj Hden (conj Hnum
            (conj Hzero (conj _ (conj Hnaive Hgen))))))))).
  - rewrite q_binomial_in_range by lia. rewrite Hmin0. exact Hrun.
  - rewrite q_binomial_in_range by lia. rewrite Hminn. exact Hrun.
  - unfold run_algo. rewrite Hzero. reflexivity.
Qed.

End ControlFlow.

(** ** The recursion of q_jordan *)

Lemma size_decrement (t : partition) (i : nat) :
  1 <= nth i t 0 -> (size (decrement t i) + 1 = size t)%nat.
Proof.
  revert i. induction t as [|a t IH]; intros i H.
  - destruct i; simpl in H; lia.
  - destruct i as [|i]; simpl in *.
    + lia.
    + specialize (IH i H). lia.
Qed.

Lemma weakly_decreasing_tail (a : Z) (l : list Z) :
  weakly_decreasing (a :: l) = true -> weakly_decreasing l = true.
Proof.
  destruct l as [|b l]; [reflexivity|].
  cbn [weakly_decreasing]. intros H.
  apply andb_true_iff in H. destruct H as [_ H]. exact H.
Qed.

Lemma weakly_decreasing_head (a b : Z) (l : list Z) :
  weakly_decreasing (a :: b :: l) = true -> 0 <= b <= a.
Proof.
  intros H. pose proof (weakly_decreasing_tail _ _ H) as Ht.
  cbn [weakly_decreasing] in H.
  apply andb_true_iff in H. destruct H as [H _].
  apply andb_true_iff in H. destruct H as [_ H]. apply Z.leb_le in H.
  split; [|exact H].
  destruct l as [|c l]; cbn [weakly_decreasing] in Ht.
  - apply Z.leb_le. exact Ht.
  - apply andb_true_iff in Ht. destruct Ht as [Ht _].
    apply andb_true_iff in Ht. destruct Ht as [Ht _]. apply Z.leb_le. exact Ht.
Qed.

(** Below a zero part a weakly decreasing list has zero parts only. *)
Lemma size_below_zero (l : list Z) :
  weakly_decreasing (0 :: l) = true -> size l = O.
Proof.
  induction l as [|b l IH]; intros H.
  - reflexivity.
  - pose proof (weakly_decreasing_head _ _ _ H) as Hb.
    assert (b = 0) by lia. subst b.
    simpl. apply IH. apply (weakly_decreasing_tail 0). exact H.
Qed.

Lemma size_before_first_zero (l : list Z) :
  weakly_decreasing l = true -> size (before_first_zero l) = size l.
Proof.
  induction l as [|a l IH]; intros H.
  - reflexivity.
  - cbn [before_first_zero]. destruct (Z.eqb_spec a 0) as [E|E].
    + subst a. simpl. symmetry. apply size_below_zero. exact H.
    + simpl. rewrite IH by (apply (weakly_decreasing_tail a); exact H). reflexivity.
Qed.

(** The partition built for a recursive call has total size one less. *)
Lemma recursive_call_smaller (t tp : partition) (i : nat) (tj : Z) :
  0 <= tj -> nth i t 0 > tj -> Partition (decrement t i) = Ok tp ->
  (size tp + 1 = size t)%nat.
Proof.
  intros Htj Hti HP. unfold Partition in HP.
  destruct (weakly_decreasing (decrement t i)) eqn:Hw; [|discriminate].
  injection HP as <-.
  rewrite size_before_first_zero by exact Hw.
  apply size_decrement. lia.
Qed.

Section Recursion.

Context {R : Type} {V : Value R}.

Lemma q_jordan_step_ok rec (t : partition) (q : R) st (i : nat) :
  state_ok st -> state_ok (q_jordan_step rec t q st i).
Proof.
  intros Hst. unfold q_jordan_step.
  destruct st as [[[tj res]|e|]|]; try exact I.
  simpl in Hst.
  destruct (Z.gtb_spec (nth i t 0) tj) as [Hgt|Hle]; [|exact Hst].
  destruct (Partition (decrement t i)) as [tp|e|]; try exact I.
  destruct (rec tp) as [r|]; [|exact I].
  destruct r as [rj|e|]; try exact I.
  simpl. destruct (floordiv _ _); simpl; try exact I. lia.
Qed.

Lemma q_jordan_step_ext rec1 rec2 (t : partition) (q : R) st (i : nat) :
  (forall tp, (size tp < size t)%nat -> rec1 tp = rec2 tp) ->
  state_ok st ->
  q_jordan_step rec1 t q st i = q_jordan_step rec2 t q st i.
Proof.
  intros Hrec Hst. unfold q_jordan_step.
  destruct st as [[[tj res]|e|]|]; try reflexivity.
  simpl in Hst.
  destruct (Z.gtb_spec (nth i t 0) tj) as [Hgt|Hle]; [|reflexivity].
  destruct (Partition (decrement t i)) as [tp|e|] eqn:HP; try reflexivity.
  rewrite (Hrec tp); [reflexivity|].
  pose proof (recursive_call_smaller t tp i tj Hst ltac:(lia) HP). lia.
Qed.

Lemma q_jordan_step_some rec (t : partition) (q : R) st (i : nat) :
  (forall tp, (size tp < size t)%nat -> rec tp <> None) ->
  state_ok st -> st <> None ->
  q_jordan_step rec t q st i <> None.
Proof.
  intros Hrec Hst Hsome. unfold q_jordan_step.
  destruct st as [[[tj res]|e|]|]; try discriminate; try contradiction.
  simpl in Hst.
  destruct (Z.gtb_spec (nth i t 0) tj) as [Hgt|Hle]; [|discriminate].
  destruct (Partition (decrement t i)) as [tp|e|] eqn:HP; try discriminate.
  pose proof (recursive_call_smaller t tp i tj Hst ltac:(lia) HP) as Hsz.
  specialize (Hrec tp ltac:(lia)).
  destruct (rec tp); [discriminate|contradiction].
Qed.

Lemma q_jordan_loop_ext rec1 rec2 (t : partition) (q : R) (l : list nat) st :
  (forall tp, (size tp < size t)%nat -> rec1 tp = rec2 tp) ->
  state_ok st ->
  fold_left (q_jordan_step rec1 t q) l st = fold_left (q_jordan_step rec2 t q) l st.
Proof.
  intros Hrec. revert st. induction l as [|i l IH]; intros st Hst; simpl.
  - reflexivity.
  - rewrite (q_jordan_step_ext rec1 rec2) by assumption.
    apply IH. apply q_jordan_step_ok. exact Hst.
Qed.

Lemma q_jordan_loop_some rec (t : partition) (q : R) (l : list nat) st :
  (forall tp, (size tp < size t)%nat -> rec tp <> None) ->
  state_ok st -> st <> None ->
  fold_left (q_jordan_step rec t q) l st <> None.
Proof.
  intros Hrec. revert st. induction l as [|i l IH]; intros st Hst Hsome; simpl.
  - exact Hsome.
  - apply IH.
    + apply q_jordan_step_ok. exact Hst.
    + apply q_jordan_step_some; assumption.
Qed.

(** A bound above the total size is never reached. *)
Lemma q_jordan_rec_some (q : R) (fuel : nat) :
  forall t : partition, (size t < fuel)%nat -> q_jordan_rec fuel t q <> None.
Proof.
  induction fuel as [|fuel IH]; intros t Hsz; [lia|].
  cbn [q_jordan_rec].
  destruct (eqb q one); [discriminate|].
  destruct (List.length t =? 0)%nat; [discriminate|].
  pose proof (q_jordan_loop_some (fun tp => q_jordan_rec fuel tp q) t q
                (range_down (List.length t)) (Some (Ok (0, zero)))) as Hloop.
  destruct (fold_left _ _ _); [discriminate|].
  exfalso. apply Hloop.
  - intros tp Htp. apply IH. lia.
  - simpl. lia.
  - discriminate.
  - reflexivity.
Qed.

(** Two bounds above the total size give the same outcome. *)
Lemma q_jordan_rec_bound_irrelevant (q : R) (f1 : nat) :
  forall (f2 : nat) (t : partition),
    (size t < f1)%nat -> (size t < f2)%nat ->
    q_jordan_rec f1 t q = q_jordan_rec f2 t q.
Proof.
  induction f1 as [|f1 IH]; intros f2 t H1 H2; [lia|].
  destruct f2 as [|f2]; [lia|].
  cbn [q_jordan_rec].
  destruct (eqb q one); [reflexivity|].
  destruct (List.length t =? 0)%nat; [reflexivity|].
  rewrite (q_jordan_loop_ext (fun tp => q_jordan_rec f1 tp q)
                             (fun tp => q_jordan_rec f2 tp q)).
  - reflexivity.
  - intros tp Htp. apply IH; lia.
  - simpl. lia.
Qed.

(** C8: for every list of parts [t], the empty one included, and every
    [q] with [q == 1], [q_jordan(t, q)] raises [ValueError] with the
    message "q must not be equal to 1"; this is the first thing the body
    does, so it is the outcome under every bound on the recursion, the
    bound that allows no recursive call included. *)
Theorem q_jordan_rejects_one (t : partition) (q : R) :
  eqb q one = true ->
  q_jordan t q = Some (Raise (ValueError "q must not be equal to 1" [])) /\
  forall fuel : nat,
    q_jordan_rec (S fuel) t q
    = Some (Raise (ValueError "q must not be equal to 1" [])).
Proof.
  intros Hq. split.
  - unfold q_jordan. cbn [q_jordan_rec]. rewrite Hq. reflexivity.
  - intros fuel. cbn [q_jordan_rec]. rewrite Hq. reflexivity.
Qed.

(** C9: [q_jordan] terminates on every list of parts and every [q]: the
    partition of each recursive call has total size one less than [t]
    (one part decremented by one), the call with the bound [size t + 1]
    on the depth of the recursion returns, and so does the call with any
    larger bound, with the same outcome. *)
Theorem q_jordan_terminates (t : partition) (q : R) :
  (exists r : result R, q_jordan t q = Some r) /\
  (forall fuel : nat, (size t < fuel)%nat -> q_jordan_rec fuel t q = q_jordan t q) /\
  (forall (i : nat) (tj : Z) (tp : partition),
      0 <= tj -> nth i t 0 > tj -> Partition (decrement t i) = Ok tp ->
      (size tp + 1 = size t)%nat).
Proof.
  split; [|split].
  - pose proof (q_jordan_rec_some q (S (size t)) t ltac:(lia)) as H.
    unfold q_jordan. destruct (q_jordan_rec (S (size t)) t q) as [r|].
    + exists r. reflexivity.
    + contradiction.
  - intros fuel Hf. unfold q_jordan.
    apply q_jordan_rec_bound_irrelevant; lia.
  - intros i tj tp. apply recursive_call_smaller.
Qed.

End Recursion.

(** ** Products, sums and powers in a commutative ring *)

Lemma floor_step (i d : Z) :
  0 < d -> i / d = (i - 1) / d + (if i mod d =? 0 then 1 else 0).
Proof.
  intros Hd. destruct (Z.eqb_spec (i mod d) 0) as [E|E];
    Z.to_euclidean_division_equations; nia.
Qed.

Lemma floor_split (n k d : Z) :
  0 < d ->
  n / d - (n - k) / d
  = k / d + (if negb (n / d =? k / d + (n - k) / d) then 1 else 0).
Proof.
  intros Hd. destruct (Z.eqb_spec (n / d) (k / d + (n - k) / d)) as [E|E]; simpl.
  - lia.
  - Z.to_euclidean_division_equations. nia.
Qed.

Section Algebra.

Context {R : Type} {V : Value R} {L : ValueLaws R}.
Local Open Scope value_scope.

Add Ring value_ring_inst : value_ring.

Lemma fold_mul_from (l : list R) (a : R) : fold_left mul l a = a * prod l.
Proof.
  unfold prod. revert a. induction l as [|x l IH]; intros a; simpl.
  - ring.
  - rewrite IH, (IH (one * x)). ring.
Qed.

Lemma prod_cons (x : R) (l : list R) : prod (x :: l) = x * prod l.
Proof. unfold prod at 1. simpl. rewrite fold_mul_from. ring. Qed.

Lemma prod_app (l1 l2 : list R) : prod (l1 ++ l2) = prod l1 * prod l2.
Proof.
  unfold prod at 1. rewrite fold_left_app. fold (prod l1).
  apply fold_mul_from.
Qed.

Lemma prod_snoc (l : list R) (x : R) : prod (l ++ [x]) = prod l * x.
Proof. unfold prod. rewrite fold_left_app. reflexivity. Qed.

Lemma sum_snoc (l : list R) (x : R) : sum (l ++ [x]) = sum l + x.
Proof. unfold sum. rewrite fold_left_app. reflexivity. Qed.

Lemma pow_1 (x : R) : x ** 1 = x.
Proof. change 1%Z with (0 + 1)%Z. rewrite pow_succ, pow_0 by lia. ring. Qed.

Lemma pow_add (x : R) (a b : Z) :
  (0 <= a)%Z -> (0 <= b)%Z -> x ** (a + b) = x ** a * x ** b.
Proof.
  intros Ha Hb. revert b Hb. apply natlike_ind.
  - rewrite Z.add_0_r, pow_0. ring.
  - intros b Hb IH.
    replace (a + Z.succ b)%Z with (a + b + 1)%Z by lia.
    replace (Z.succ b) with (b + 1)%Z by lia.
    rewrite !pow_succ by lia. rewrite IH. ring.
Qed.

Lemma geometric_sum_0 (q : R) : geometric_sum q 0 = zero.
Proof. reflexivity. Qed.

Lemma geometric_sum_succ (q : R) (i : Z) :
  (0 <= i)%Z -> geometric_sum q (i + 1) = geometric_sum q i + q ** i.
Proof.
  intros Hi. unfold geometric_sum.
  rewrite range_snoc by lia. rewrite map_app. apply sum_snoc.
Qed.

(** [1 - q^i = (1 - q) (1 + q + ... + q^(i-1))] *)
Lemma one_minus_pow (q : R) (i : Z) :
  (0 <= i)%Z -> one - q ** i = (one - q) * geometric_sum q i.
Proof.
  revert i. apply natlike_ind.
  - rewrite pow_0, geometric_sum_0. ring.
  - intros i Hi IH. replace (Z.succ i) with (i + 1)%Z by lia.
    rewrite geometric_sum_succ, pow_succ by lia.
    transitivity ((one - q) * geometric_sum q i + (one - q) * q ** i).
    + rewrite <- IH. ring.
    + ring.
Qed.

(** [q^i - q^0 = (q - 1) (1 + q + ... + q^(i-1))] *)
Lemma pow_minus_one (q : R) (i : Z) :
  (0 <= i)%Z -> q ** i - q ** 0 = (q - one) * geometric_sum q i.
Proof.
  intros Hi. rewrite pow_0.
  transitivity (- (one - q ** i)); [ring|].
  rewrite one_minus_pow by exact Hi. ring.
Qed.

(** *** Products of powers indexed by a list *)

Section Weighted.

Variable phi : Z -> R.

Lemma weighted_cons (e : Z -> Z) (d : Z) (l : list Z) :
  weighted phi e (d :: l) = phi d ** e d * weighted phi e l.
Proof. unfold weighted. simpl map. apply prod_cons. Qed.

Lemma weighted_app (e : Z -> Z) (l1 l2 : list Z) :
  weighted phi e (l1 ++ l2) = weighted phi e l1 * weighted phi e l2.
Proof. unfold weighted. rewrite map_app. apply prod_app. Qed.

Lemma weighted_ext (e e' : Z -> Z) (l : list Z) :
  (forall d, In d l -> e d = e' d) -> weighted phi e l = weighted phi e' l.
Proof.
  intros H. unfold weighted. f_equal. apply map_ext_in.
  intros d Hd. rewrite (H d Hd). reflexivity.
Qed.

Lemma weighted_zero (e : Z -> Z) (l : list Z) :
  (forall d, In d l -> e d = 0%Z) -> weighted phi e l = one.
Proof.
  induction l as [|d l IH]; intros H.
  - reflexivity.
  - rewrite weighted_cons, IH, (H d), pow_0.
    + ring.
    + left. reflexivity.
    + intros x Hx. apply H. right. exact Hx.
Qed.

Lemma weighted_add (e1 e2 : Z -> Z) (l : list Z) :
  (forall d, In d l -> (0 <= e1 d)%Z /\ (0 <= e2 d)%Z) ->
  weighted phi (fun d => (e1 d + e2 d)%Z) l = weighted phi e1 l * weighted phi e2 l.
Proof.
  induction l as [|d l IH]; intros H.
  - unfold weighted, prod. simpl. ring.
  - rewrite !weighted_cons, IH.
    + destruct (H d (or_introl eq_refl)) as [H1 H2].
      rewrite pow_add by assumption. ring.
    + intros x Hx. apply H. right. exact Hx.
Qed.

Lemma weighted_filter (f : Z -> bool) (l : list Z) :
  prod (map phi (filter f l)) = weighted phi (fun d => if f d then 1%Z else 0%Z) l.
Proof.
  induction l as [|d l IH].
  - reflexivity.
  - rewrite weighted_cons. simpl filter. destruct (f d).
    + simpl map. rewrite prod_cons, IH, pow_1. reflexivity.
    + rewrite IH, pow_0. ring.
Qed.

End Weighted.

End Algebra.

(** ** The factorization behind the cyclotomic algorithms *)

Section Factorization.

Context {R : Type} {V : Value R} {SG : Sage R} {L : ValueLaws R}.
Local Open Scope value_scope.

Add Ring value_ring_fact : value_ring.

Variable n : Z.
Variable q : R.
Hypothesis contract : cyclotomic_contract n q.

Let phi : Z -> R := fun d => cyclotomic_value d q.
Let divides (i d : Z) : Z := if (i mod d =? 0)%Z then 1%Z else 0%Z.

(** A geometric sum is the product of the cyclotomic values whose index
    divides its length. *)
Lemma geometric_weighted (i : Z) :
  (1 <= i <= n)%Z ->
  geometric_sum q i = weighted phi (divides i) (range 2 (n + 1)).
Proof.
  intros Hi. rewrite <- (contract i Hi). unfold divisors_from_2.
  rewrite (weighted_filter phi).
  rewrite (range_app 2 (i + 1) (n + 1)) by lia.
  rewrite weighted_app.
  rewrite (weighted_zero phi _ (range (i + 1) (n + 1))).
  - fold (divides i). unfold weighted. ring.
  - intros d Hd. apply in_range in Hd. unfold divides.
    rewrite Z.mod_small by lia.
    destruct (Z.eqb_spec i 0); [lia|reflexivity].
Qed.

(** The product of consecutive geometric sums, with the multiplicity of
    each cyclotomic value counted by floors. *)
Lemma geometric_prod (a : Z) :
  (0 <= a)%Z ->
  forall m : Z, (0 <= m)%Z -> (a + m <= n)%Z ->
    prod (map (geometric_sum q) (range (a + 1) (a + m + 1)))
    = weighted phi (fun d => ((a + m) / d - a / d)%Z) (range 2 (n + 1)).
Proof.
  intros Ha. apply (natlike_ind (fun m => (a + m <= n)%Z -> _)).
  - intros _. rewrite range_nil by lia.
    rewrite weighted_zero; [reflexivity|].
    intros d _. rewrite Z.add_0_r. lia.
  - intros m Hm IH Hle.
    replace (a + Z.succ m + 1)%Z with (a + m + 1 + 1)%Z by lia.
    rewrite range_snoc by lia. rewrite map_app. simpl map.
    rewrite prod_snoc, IH by lia.
    rewrite (geometric_weighted (a + m + 1)) by lia.
    rewrite <- weighted_add.
    + apply weighted_ext. intros d Hd. apply in_range in Hd.
      unfold divides.
      replace (a + Z.succ m)%Z with (a + m + 1)%Z by lia.
      rewrite (floor_step (a + m + 1) d) by lia.
      replace (a + m + 1 - 1)%Z with (a + m)%Z by lia. lia.
    + intros d Hd. apply in_range in Hd. split.
      * assert (a / d <= (a + m) / d)%Z by (apply Z.div_le_mono; lia). lia.
      * unfold divides. destruct (_ =? _)%Z; lia.
Qed.

(** The product of the geometric sums of length [n-k+1 .. n] is that of
    the geometric sums of length [1 .. k] times the product of the
    cyclotomic values the algorithms select. *)
Lemma cyclo_factorization (k : Z) :
  (0 <= k <= n)%Z ->
  prod (map (geometric_sum q) (range (n - k + 1) (n + 1)))
  = prod (map (geometric_sum q) (range 1 (k + 1)))
    * prod (map phi (cyclo_indices n k)).
Proof.
  intros Hk.
  pose proof (geometric_prod (n - k) ltac:(lia) k ltac:(lia) ltac:(lia)) as Hnum.
  replace (n - k + k + 1)%Z with (n + 1)%Z in Hnum by lia.
  pose proof (geometric_prod 0 ltac:(lia) k ltac:(lia) ltac:(lia)) as Hden.
  replace (0 + 1)%Z with 1%Z in Hden by lia.
  replace (0 + k + 1)%Z with (k + 1)%Z in Hden by lia.
  rewrite Hnum, Hden. unfold cyclo_indices.
  rewrite (weighted_filter phi).
  rewrite <- weighted_add.
  - apply weighted_ext. intros d Hd. apply in_range in Hd.
    rewrite !floor_div_pos by lia.
    replace (n - k + k)%Z with n by lia.
    rewrite (floor_split n k d) by lia.
    rewrite (Z.div_0_l d) by lia.
    replace (0 + k)%Z with k by lia. lia.
  - intros d Hd. apply in_range in Hd. split.
    + assert (0 / d <= (0 + k) / d)%Z by (apply Z.div_le_mono; lia). lia.
    + destruct (negb _); lia.
Qed.

(** Each factor [1 - q^i] of the naive algorithm carries one factor
    [1 - q]. *)
Lemma linear_factors (l : list Z) :
  (forall i, In i l -> (0 <= i)%Z) ->
  prod (map (fun i => one - q ** i) l)
  = (one - q) ** Z.of_nat (List.length l) * prod (map (geometric_sum q) l).
Proof.
  induction l as [|i l IH]; intros H.
  - simpl. rewrite pow_0. unfold prod. simpl. ring.
  - simpl map. rewrite !prod_cons, IH by (intros x Hx; apply H; right; exact Hx).
    rewrite one_minus_pow by (apply H; left; reflexivity).
    simpl List.length. rewrite Nat2Z.inj_succ.
    replace (Z.succ (Z.of_nat (List.length l))) with (Z.of_nat (List.length l) + 1)%Z by lia.
    rewrite pow_succ by lia. ring.
Qed.

(** The numerator of the naive algorithm is its denominator times the
    result of the generic cyclotomic algorithm. *)
Lemma numerat_factorization (k : Z) :
  (0 <= k <= n)%Z ->
  numerat n k q = denomin k q * prod (map phi (cyclo_indices n k)).
Proof.
  intros Hk. unfold numerat, denomin.
  rewrite !linear_factors
    by (intros i Hi; apply in_range in Hi; lia).
  rewrite !length_range.
  replace (Z.to_nat (n + 1 - (n - k + 1))) with (Z.to_nat (k + 1 - 1)) by lia.
  rewrite cyclo_factorization by exact Hk. ring.
Qed.

(** Where its denominator is not zero, the naive algorithm returns what
    the generic cyclotomic algorithm returns. *)
Lemma naive_is_cyclo_generic (k : Z) :
  (0 <= k <= n)%Z ->
  run_algo naive n k q = run_cyclo_generic n k q.
Proof.
  intros Hk. unfold run_algo.
  destruct (denomin k q == zero) eqn:Hz; [reflexivity|].
  unfold naive_quotient, run_cyclo_generic.
  rewrite numerat_factorization by exact Hk.
  rewrite floordiv_exact; [reflexivity|].
  intros E. apply eqb_eq in E. rewrite E in Hz. discriminate.
Qed.

End Factorization.

(** ** Binomial coefficients and factorials *)

Lemma binomial_above (n : nat) : forall k : nat, (n < k)%nat -> binomial n k = O.
Proof.
  induction n as [|n IH]; intros k H.
  - destruct k; [lia|reflexivity].
  - destruct k as [|k]; [lia|].
    cbn [binomial]. rewrite !IH by lia. reflexivity.
Qed.

Lemma fact_pos (n : nat) : (0 < fact n)%nat.
Proof. induction n; simpl; lia. Qed.

(** [C(n, k) k! (n-k)! = n!] *)
Lemma binomial_fact (n : nat) :
  forall k : nat, (k <= n)%nat ->
    (binomial n k * (fact k * fact (n - k)) = fact n)%nat.
Proof.
  induction n as [|n IH]; intros k Hk.
  - replace k with O by lia. reflexivity.
  - destruct k as [|k].
    + cbn [binomial]. rewrite Nat.sub_0_r. simpl fact at 1. lia.
    + cbn [binomial]. replace (S n - S k)%nat with (n - k)%nat by lia.
      destruct (Nat.eq_dec k n) as [E|E].
      * subst k. rewrite (binomial_above n (S n)) by lia.
        pose proof (IH n (Nat.le_refl n)) as H.
        rewrite Nat.sub_diag in *.
        change (fact (S n)) with (S n * fact n)%nat.
        rewrite Nat.add_0_r. rewrite <- H at 2.
        change (fact 0) with 1%nat. nia.
      * pose proof (IH k ltac:(lia)) as H1.
        pose proof (IH (S k) ltac:(lia)) as H2.
        replace (n - k)%nat with (S (n - S k)) in * by lia.
        change (fact (S n)) with (S n * fact n)%nat.
        change (fact (S (n - S k))) with (S (n - S k) * fact (n - S k))%nat in *.
        change (fact (S k)) with (S k * fact k)%nat in *.
        replace (S n) with (S k + S (n - S k))%nat at 2 by lia.
        nia.
Qed.

Lemma binomial_symmetry (n k : nat) :
  (k <= n)%nat -> binomial n (n - k) = binomial n k.
Proof.
  intros Hk.
  pose proof (binomial_fact n k Hk) as H1.
  pose proof (binomial_fact n (n - k) ltac:(lia)) as H2.
  replace (n - (n - k))%nat with k in H2 by lia.
  rewrite (Nat.mul_comm (fact (n - k)) (fact k)), <- H1 in H2.
  apply Nat.mul_cancel_r in H2; [exact H2|].
  pose proof (fact_pos k). pose proof (fact_pos (n - k)). nia.
Qed.

(** [n + 1] divides [C(2n, n)]. *)
Lemma catalan_exact (n : nat) : ((n + 1) * catalan n = binomial (2 * n) n)%nat.
Proof.
  unfold catalan.
  assert (H : exists c, binomial (2 * n) n = ((n + 1) * c)%nat).
  { destruct n as [|n].
    - exists 1%nat. reflexivity.
    - exists (binomial (2 * S n) (S n) - binomial (2 * S n) (S (S n)))%nat.
      pose proof (binomial_fact (2 * S n) (S n) ltac:(lia)) as H1.
      pose proof (binomial_fact (2 * S n) (S (S n)) ltac:(lia)) as H2.
      replace (2 * S n - S n)%nat with (S n) in H1 by lia.
      replace (2 * S n - S (S n))%nat with n in H2 by lia.
      change (fact (S (S n))) with (S (S n) * fact (S n))%nat in H2.
      change (fact (S n)) with (S n * fact n)%nat in H1 at 2.
      assert (Habs : (binomial (2 * S n) (S (S n)) * S (S n)
                      = binomial (2 * S n) (S n) * S n)%nat).
      { apply (Nat.mul_cancel_r _ _ (fact (S n) * fact n)).
        - pose proof (fact_pos n). pose proof (fact_pos (S n)). nia.
        - transitivity (fact (2 * S n)).
          + rewrite <- H2. ring.
          + rewrite <- H1. ring. }
      rewrite Nat.mul_sub_distr_l. lia. }
  destruct H as [c Hc]. rewrite Hc.
  rewrite (Nat.mul_comm (n + 1) c), Nat.div_mul by lia.
  apply Nat.mul_comm.
Qed.

(** ** The integers satisfy the laws *)

#[global] Instance Z_value_laws : @ValueLaws Z ZU.value.
Proof.
  split.
  - exact Zth.
  - exact Z.eqb_eq.
  - exact Z.pow_0_r.
  - intros q i Hi. change (q ^ (i + 1) = q * q ^ i).
    rewrite <- Z.pow_succ_r by exact Hi. reflexivity.
  - intros b c Hb. change (ZU.floordiv_int (b * c) b = Ok c).
    unfold ZU.floordiv_int.
    destruct (Z.eqb_spec b 0) as [E|_]; [contradiction|].
    rewrite Z.mul_comm, Z.div_mul by exact Hb. reflexivity.
Qed.

(** ** q_int and q_factorial on non-negative arguments *)

Lemma mapM_ok {A B : Type} (f : A -> result B) (g : A -> B) (l : list A) :
  (forall x, In x l -> f x = Ok (g x)) -> mapM f l = Ok (map g l).
Proof.
  induction l as [|a l IH]; intros H; simpl.
  - reflexivity.
  - rewrite (H a) by (left; reflexivity). simpl.
    rewrite IH by (intros x Hx; apply H; right; exact Hx). reflexivity.
Qed.

Section NonNegative.

Context {R : Type} {V : Value R} {SG : Sage R}.

Lemma q_int_nonneg (j : Z) (p : option R) :
  0 <= j -> q_int j p = Ok (geometric_sum (variable_of p) j).
Proof.
  intros Hj. unfold q_int.
  destruct (Z.geb_spec j 0) as [_|H]; [|lia].
  destruct p; reflexivity.
Qed.

Lemma q_factorial_nonneg (n : Z) (p : option R) :
  0 <= n ->
  q_factorial n p
  = Ok (prod (map (geometric_sum (variable_of p)) (range 1 (n + 1)))).
Proof.
  intros Hn. unfold q_factorial.
  destruct (Z.geb_spec n 0) as [_|H]; [|lia].
  rewrite (mapM_ok _ (geometric_sum (variable_of p))).
  - reflexivity.
  - intros j Hj. apply in_range in Hj. apply q_int_nonneg. lia.
Qed.

Lemma q_catalan_number_nonneg (n : Z) (p : option R) :
  0 <= n ->
  q_catalan_number n p
  = truediv (prod (map (geometric_sum (variable_of p)) (range (n + 2) (2 * n + 1))))
            (prod (map (geometric_sum (variable_of p)) (range 2 (n + 1)))).
Proof.
  intros Hn. unfold q_catalan_number.
  destruct (Z.geb_spec n 0) as [_|H]; [|lia].
  rewrite !(mapM_ok _ (geometric_sum (variable_of p))).
  - reflexivity.
  - intros j Hj. apply in_range in Hj. apply q_int_nonneg. lia.
  - intros j Hj. apply in_range in Hj. apply q_int_nonneg. lia.
Qed.

End NonNegative.

(** ** q_jordan on a partition with one part *)

Section SinglePart.

Context {R : Type} {V : Value R} {SG : Sage R} {L : ValueLaws R}.
Local Open Scope value_scope.

Add Ring value_ring_single : value_ring.

Variable q : R.
Hypothesis q_not_one : eqb q one = false.

Lemma q_minus_one_nonzero : q - one <> zero.
Proof.
  intros E. assert (Hq : q = one).
  { transitivity (q - one + one); [ring|]. rewrite E. ring. }
  apply eqb_eq in Hq. rewrite Hq in q_not_one. discriminate.
Qed.

(** The quotient the loop of [q_jordan] multiplies by, for [tj = 0]. *)
Lemma jordan_quotient (i : Z) :
  (0 <= i)%Z ->
  floordiv (q ** i - q ** 0) (q - one) = Ok (geometric_sum q i).
Proof.
  intros Hi. rewrite pow_minus_one by exact Hi.
  apply floordiv_exact. exact q_minus_one_nonzero.
Qed.

Lemma q_jordan_rec_single (m : nat) :
  forall fuel : nat, (m < fuel)%nat ->
    q_jordan_rec fuel (before_first_zero [Z.of_nat m]) q
    = Some (Ok (prod (map (geometric_sum q) (range 1 (Z.of_nat m + 1))))).
Proof.
  induction m as [|m IH]; intros fuel Hf;
    (destruct fuel as [|fuel]; [lia|]).
  - cbn [before_first_zero Z.of_nat Z.eqb q_jordan_rec List.length Nat.eqb].
    rewrite q_not_one. reflexivity.
  - assert (Hpos : (Z.of_nat (S m) =? 0)%Z = false) by (apply Z.eqb_neq; lia).
    cbn [before_first_zero]. rewrite Hpos.
    cbn [q_jordan_rec List.length Nat.eqb range_down seq rev app fold_left].
    rewrite q_not_one.
    cbn [q_jordan_step nth decrement].
    replace (Z.of_nat (S m) >? 0)%Z with true by (symmetry; apply Z.gtb_lt; lia).
    replace (Z.of_nat (S m) - 1)%Z with (Z.of_nat m) by lia.
    unfold Partition. cbn [weakly_decreasing].
    replace (0 <=? Z.of_nat m)%Z with true by (symmetry; apply Z.leb_le; lia).
    rewrite IH by lia.
    cbn [bind]. rewrite jordan_quotient by lia. cbn [bind snd].
    f_equal. f_equal.
    replace (Z.of_nat (S m) + 1)%Z with (Z.of_nat m + 1 + 1)%Z by lia.
    rewrite (range_snoc 1 (Z.of_nat m + 1)) by lia. rewrite map_app. simpl map.
    rewrite prod_snoc.
    replace (Z.of_nat (S m)) with (Z.of_nat m + 1)%Z by lia. ring.
Qed.

End SinglePart.

(** C7, as amended: for [n >= 1] and [q] different from 1 in a
    commutative ring whose floor division is exact on multiples (the
    laws [ValueLaws]: the integers, an indeterminate), [q_jordan] on the
    partition with the single part [n] returns what [q_factorial(n, q)]
    returns, the product of the q-analogues of 1 to [n].  Where [//]
    floors a quotient that is not integral the two differ, see
    [q_jordan_single_part_counterexample]. *)
Theorem q_jordan_single_part {R : Type} {V : Value R} {SG : Sage R}
    {L : ValueLaws R} (n : Z) (q : R) :
  1 <= n -> eqb q one = false ->
  Partition [n] = Ok [n] /\
  q_jordan [n] q = Some (q_factorial n (Some q)) /\
  q_factorial n (Some q) = Ok (prod (map (geometric_sum q) (range 1 (n + 1)))).
Proof.
  intros Hn Hq.
  assert (Hbz : before_first_zero [n] = [n]).
  { cbn [before_first_zero]. destruct (Z.eqb_spec n 0); [lia|reflexivity]. }
  split; [|split].
  - unfold Partition. cbn [weakly_decreasing].
    replace (0 <=? n) with true by (symmetry; apply Z.leb_le; lia).
    rewrite Hbz. reflexivity.
  - rewrite (q_factorial_nonneg n (Some q)) by lia.
    unfold q_jordan.
    pose proof (q_jordan_rec_single q Hq (Z.to_nat n) (S (size [n]))
                  ltac:(simpl; lia)) as H.
    rewrite (Z2Nat.id n) in H by lia. rewrite Hbz in H. exact H.
  - apply (q_factorial_nonneg n (Some q)). lia.
Qed.

(** C7 as stated, for every value [q] other than 1, fails at the rational
    number [q = 5/2]: [q_jordan] on the partition [[2]] computes
    [(q^2 - q^0) // (q - 1) = (21/4) // (3/2) = 3], where
    [q_factorial(2, q)] is [1 + q = 7/2]. *)
Lemma q_jordan_single_part_counterexample :
  let q : Q := 5 # 2 in
  eqb q one = false /\
  Partition [2] = Ok [2] /\
  floordiv (sub (pow q 2) (pow q 0)) (sub q one) = Ok (inject_Z 3) /\
  q_jordan [2] q = Some (Ok (inject_Z 3)) /\
  @q_factorial _ QU.value (QU.sage false 0) 2 (Some q) = Ok (7 # 2) /\
  q_jordan [2] q <> Some (@q_factorial _ QU.value (QU.sage false 0) 2 (Some q)).
Proof.
  intros q.
  assert (Hj : q_jordan [2] q = Some (Ok (inject_Z 3)))
    by (vm_compute; reflexivity).
  assert (Hf : @q_factorial _ QU.value (QU.sage false 0) 2 (Some q) = Ok (7 # 2))
    by (vm_compute; reflexivity).
  refine (conj _ (conj _ (conj _ (conj Hj (conj Hf _))))).
  - reflexivity.
  - reflexivity.
  - vm_compute. reflexivity.
  - rewrite Hj, Hf. discriminate.
Qed.

(** ** The value at 1 *)

Section AtOne.

Context {SG : Sage Z}.

Lemma geometric_sum_at_one (i : Z) : 0 <= i -> geometric_sum 1 i = i.
Proof.
  revert i. apply natlike_ind.
  - reflexivity.
  - intros i Hi IH. replace (Z.succ i) with (i + 1) by lia.
    rewrite geometric_sum_succ by exact Hi. rewrite IH.
    change (i + 1 ^ i = i + 1). rewrite Z.pow_1_l by exact Hi. reflexivity.
Qed.

Lemma prod_geometric_at_one (a b : Z) :
  0 <= a -> prod (map (geometric_sum 1) (range a b)) = prod (range a b).
Proof.
  intros Ha. f_equal. rewrite <- (map_id (range a b)) at 2.
  apply map_ext_in. intros i Hi. apply in_range in Hi.
  apply geometric_sum_at_one. lia.
Qed.

Lemma prod_range_fact (m : nat) :
  prod (range 1 (Z.of_nat m + 1)) = Z.of_nat (fact m).
Proof.
  induction m as [|m IH].
  - reflexivity.
  - replace (Z.of_nat (S m) + 1) with (Z.of_nat m + 1 + 1) by lia.
    rewrite range_snoc by lia. rewrite prod_snoc, IH.
    change (fact (S m)) with (S m * fact m)%nat.
    change (Z.of_nat (fact m) * (Z.of_nat m + 1) = Z.of_nat (S m * fact m)). lia.
Qed.

Lemma prod_range_split (a b : Z) :
  0 <= a <= b ->
  prod (range 1 (a + 1)) * prod (range (a + 1) (b + 1)) = prod (range 1 (b + 1)).
Proof.
  intros H. rewrite (range_app 1 (a + 1) (b + 1)) by lia.
  rewrite prod_app. reflexivity.
Qed.

(** At 1 the generic cyclotomic algorithm returns the binomial
    coefficient. *)
Lemma cyclo_generic_at_one (n k : Z) :
  0 <= k <= n -> cyclotomic_contract n 1 ->
  run_cyclo_generic n k 1 = Ok (Z.of_nat (binomial (Z.to_nat n) (Z.to_nat k))).
Proof.
  intros Hk Hc. unfold run_cyclo_generic. f_equal.
  pose proof (cyclo_factorization n 1 Hc k Hk) as H.
  cbv zeta in H.
  rewrite !prod_geometric_at_one in H by lia.
  set (c := prod (map (fun d => cyclotomic_value d 1) (cyclo_indices n k))) in *.
  pose proof (prod_range_split (n - k) n ltac:(lia)) as Hs.
  rewrite H in Hs.
  pose proof (prod_range_fact (Z.to_nat n)) as Fn.
  pose proof (prod_range_fact (Z.to_nat k)) as Fk.
  pose proof (prod_range_fact (Z.to_nat (n - k))) as Fnk.
  rewrite Z2Nat.id in Fn, Fk, Fnk by lia.
  rewrite Fn, Fk, Fnk in Hs.
  pose proof (binomial_fact (Z.to_nat n) (Z.to_nat k) ltac:(lia)) as Hb.
  replace (Z.to_nat n - Z.to_nat k)%nat with (Z.to_nat (n - k)) in Hb by lia.
  apply (f_equal Z.of_nat) in Hb. rewrite !Nat2Z.inj_mul in Hb.
  change (Z.of_nat (fact (Z.to_nat (n - k)))
          * (Z.of_nat (fact (Z.to_nat k)) * c)
          = Z.of_nat (fact (Z.to_nat n))) in Hs.
  pose proof (fact_pos (Z.to_nat k)). pose proof (fact_pos (Z.to_nat (n - k))).
  apply (Z.mul_reg_l _ _ (Z.of_nat (fact (Z.to_nat k)) * Z.of_nat (fact (Z.to_nat (n - k))))).
  - nia.
  - rewrite <- Hb in Hs. lia.
Qed.

End AtOne.

(** C1: for [n >= 0] and [0 <= k <= n], [q_binomial(n, k, 1)] is the
    binomial coefficient [C(n, k)]: with the integer 1, which is not a
    polynomial, whatever [1 in SR] answers, and with a
    [cyclotomic_value] that meets [cyclotomic_contract] at 1 up to
    index [n]. *)
Theorem q_binomial_at_one (SG : Sage Z) (n k : Z) :
  0 <= k <= n ->
  isinstance_Polynomial 1 = false ->
  cyclotomic_contract n 1 ->
  q_binomial n k (Some 1) = Ok (Z.of_nat (binomial (Z.to_nat n) (Z.to_nat k))).
Proof.
  intros Hk Hpoly Hc.
  rewrite q_binomial_in_range by lia.
  cbn [polynomiality_test fst snd]. rewrite Hpoly.
  set (k' := Z.min (n - k) k).
  assert (Hk' : 0 <= k' <= n) by (unfold k'; lia).
  assert (Hrun : run_algo (choose_algo n k' 1 false) n k' 1 = run_cyclo_generic n k' 1).
  { unfold choose_algo. destruct (in_SR 1).
    - reflexivity.
    - apply naive_is_cyclo_generic; assumption. }
  rewrite Hrun, cyclo_generic_at_one by assumption.
  f_equal. f_equal. unfold k'.
  destruct (Z.min_spec (n - k) k) as [[_ E]|[_ E]]; rewrite E.
  - replace (Z.to_nat (n - k)) with (Z.to_nat n - Z.to_nat k)%nat by lia.
    apply binomial_symmetry. lia.
  - reflexivity.
Qed.

(** C6: for [n >= 0], [q_catalan_number(n, p)] is the product of
    [q_int(j, p)] for [j] from [n+2] to [2n] divided by that for [j]
    from 2 to [n], where [q_int(j, p)] is the geometric sum of length
    [j]; for [n = 0] both products are empty; and at the integer
    [p = 1] the result is the Catalan number of index [n]. *)
Theorem q_catalan_number_correct :
  (forall (R : Type) (V : Value R) (SG : Sage R) (n : Z) (p : option R),
      0 <= n ->
      (forall j : Z, 0 <= j -> q_int j p = Ok (geometric_sum (variable_of p) j)) /\
      q_catalan_number n p
      = truediv (prod (map (geometric_sum (variable_of p)) (range (n + 2) (2 * n + 1))))
                (prod (map (geometric_sum (variable_of p)) (range 2 (n + 1))))) /\
  (forall (R : Type) (V : Value R) (SG : Sage R) (p : option R),
      q_catalan_number 0 p = truediv one one) /\
  (forall (SG : Sage Z) (n : Z),
      0 <= n ->
      q_catalan_number n (Some 1) = Ok (Z.of_nat (catalan (Z.to_nat n)))).
Proof.
  split; [|split].
  - intros R V SG n p Hn. split.
    + intros j Hj. apply q_int_nonneg. exact Hj.
    + apply q_catalan_number_nonneg. exact Hn.
  - intros R V SG p. reflexivity.
  - intros SG n Hn. rewrite q_catalan_number_nonneg by exact Hn.
    cbn [variable_of]. rewrite !prod_geometric_at_one by lia.
    set (m := Z.to_nat n).
    assert (Hden : prod (range 2 (n + 1)) = Z.of_nat (fact m)).
    { rewrite <- prod_range_fact. unfold m. rewrite Z2Nat.id by lia.
      destruct (Z.eq_dec n 0) as [E|E].
      - subst n. reflexivity.
      - rewrite (range_cons 1 (n + 1)) by lia. rewrite prod_cons.
        change (1 + 1) with 2. symmetry. apply Z.mul_1_l. }
    assert (Hnum : prod (range (n + 2) (2 * n + 1)) * Z.of_nat (fact (S m))
                   = Z.of_nat (fact (2 * m))).
    { destruct (Z.eq_dec n 0) as [E|E].
      - subst n. reflexivity.
      - pose proof (prod_range_split (n + 1) (2 * n) ltac:(lia)) as Hs.
        pose proof (prod_range_fact (S m)) as F1.
        pose proof (prod_range_fact (2 * m)) as F2.
        replace (Z.of_nat (S m) + 1) with (n + 1 + 1) in F1 by lia.
        replace (Z.of_nat (2 * m) + 1) with (2 * n + 1) in F2 by lia.
        rewrite F1, F2 in Hs.
        replace (n + 2) with (n + 1 + 1) by lia.
        rewrite <- Hs. apply Z.mul_comm. }
    rewrite Hden.
    assert (Hquot : prod (range (n + 2) (2 * n + 1))
                    = Z.of_nat (fact m) * Z.of_nat (catalan m)).
    { pose proof (binomial_fact (2 * m) m ltac:(lia)) as Hb.
      replace (2 * m - m)%nat with m in Hb by lia.
      pose proof (catalan_exact m) as Hcat.
      rewrite <- Hcat in Hb.
      apply (f_equal Z.of_nat) in Hb. rewrite <- Hnum in Hb.
      change (fact (S m)) with (S m * fact m)%nat in Hb.
      rewrite !Nat2Z.inj_mul in Hb.
      pose proof (fact_pos m).
      apply (Z.mul_reg_l _ _ (Z.of_nat (S m) * Z.of_nat (fact m))); [nia|].
      replace (Z.of_nat (m + 1)) with (Z.of_nat (S m)) in Hb by lia.
      lia. }
    rewrite Hquot.
    change (ZU.truediv_int (Z.of_nat (fact m) * Z.of_nat (catalan m)) (Z.of_nat (fact m))
            = Ok (Z.of_nat (catalan m))).
    unfold ZU.truediv_int. pose proof (fact_pos m).
    destruct (Z.eqb_spec (Z.of_nat (fact m)) 0) as [E|_]; [lia|].
    rewrite Z.mul_comm, Z.mod_mul, Z.div_mul by lia. reflexivity.
Qed.

(** ** The cyclotomic-polynomial algorithm on a polynomial that is not the
    indeterminate *)

(** The constant coefficient of a product of polynomials. *)

Lemma hd_norm (l : list Z) : hd 0 (Poly.norm l) = hd 0 l.
Proof.
  destruct l as [|a l]; [reflexivity|].
  cbn [Poly.norm]. destruct (Poly.norm l); [|reflexivity].
  destruct (Z.eqb_spec a 0) as [E|_]; [|reflexivity].
  subst a. reflexivity.
Qed.

Lemma hd_add_raw (p q : list Z) :
  hd 0 (Poly.add_raw p q) = hd 0 p + hd 0 q.
Proof. destruct p, q; simpl; lia. Qed.

Lemma hd_scale (c : Z) (p : list Z) : hd 0 (Poly.scale c p) = c * hd 0 p.
Proof. destruct p; simpl; lia. Qed.

Lemma hd_pmul (p q : Poly.poly) : hd 0 (Poly.pmul p q) = hd 0 p * hd 0 q.
Proof.
  unfold Poly.pmul. rewrite hd_norm. destruct p as [|a p].
  - reflexivity.
  - cbn [Poly.mul_raw]. rewrite hd_add_raw, hd_scale. simpl. lia.
Qed.

Lemma hd_prod (l : list Poly.poly) :
  (forall p, In p l -> hd 0 p = 1) -> hd 0 (prod l) = 1.
Proof.
  unfold prod. change (@one _ PU.value) with [1].
  assert (H1 : hd 0 [1] = 1) by reflexivity. revert H1.
  generalize [1] as acc. induction l as [|p l IH]; intros acc Hacc H.
  - exact Hacc.
  - simpl. apply IH.
    + change (hd 0 (Poly.pmul acc p) = 1).
      rewrite hd_pmul, Hacc, (H p) by (left; reflexivity). reflexivity.
    + intros x Hx. apply H. right. exact Hx.
Qed.

(** C2: for [n = 71] and [k = 18], where [n > 70] and [k > n/4],
    [q_binomial] runs the cyclotomic-polynomial algorithm on every
    polynomial [q].  That algorithm multiplies the cyclotomic polynomials
    themselves and never uses [q]: the call returns the same polynomial
    for all [q], [x^2] and [x] for instance, with constant coefficient 1.
    For the constant polynomial [q = 2] the naive and the generic
    cyclotomic algorithm agree on a constant other than 1, which the
    call does not return.  Already for [n = 2], [k = 1] and
    [q = x^2 - 1] the naive and the generic cyclotomic algorithm give
    [x^2] and the cyclotomic-polynomial one [x + 1]. *)
Theorem q_binomial_cyclo_polynomial_ignores_q :
  (forall q : Poly.poly,
      q_binomial 71 18 (Some q) = run_cyclo_polynomial 71 18 q) /\
  (forall q q' : Poly.poly,
      q_binomial 71 18 (Some q) = q_binomial 71 18 (Some q')) /\
  q_binomial 71 18 (Some [0; 0; 1]) = q_binomial 71 18 (Some Poly.X) /\
  (forall q r : Poly.poly, q_binomial 71 18 (Some q) = Ok r -> hd 0 r = 1) /\
  run_algo naive 71 18 (Poly.const 2) = run_cyclo_generic 71 18 (Poly.const 2) /\
  q_binomial 71 18 (Some (Poly.const 2)) <> run_algo naive 71 18 (Poly.const 2) /\
  run_algo naive 2 1 [-1; 0; 1] = Ok [0; 0; 1] /\
  run_algo cyclo_generic 2 1 [-1; 0; 1] = Ok [0; 0; 1] /\
  run_algo cyclo_polynomial 2 1 [-1; 0; 1] = Ok [1; 1].
Proof.
  assert (Hchoice : forall q : Poly.poly,
             q_binomial 71 18 (Some q) = run_cyclo_polynomial 71 18 q).
  { intros q. rewrite q_binomial_in_range by lia.
    change (Z.min (71 - 18) 18) with 18.
    cbn [polynomiality_test fst snd isinstance_Polynomial PU.sage].
    unfold choose_algo. rewrite quarter_test. reflexivity. }
  assert (Hsame : forall q q' : Poly.poly,
             q_binomial 71 18 (Some q) = q_binomial 71 18 (Some q')).
  { intros q q'. rewrite !Hchoice. reflexivity. }
  assert (Hhd : forall q r : Poly.poly,
             q_binomial 71 18 (Some q) = Ok r -> hd 0 r = 1).
  { intros q r. rewrite Hchoice. unfold run_cyclo_polynomial.
    remember (prod (map (fun d => cyclotomic_polynomial q d) (cyclo_indices 71 18)))
      as P eqn:EP.
    intros H. injection H as <-. rewrite EP. apply hd_prod.
    intros p Hp. apply in_map_iff in Hp. destruct Hp as [d [<- Hd]].
    assert (Hall : forallb (fun d => hd 0 (Poly.cyclotomic d) =? 1)
                           (cyclo_indices 71 18) = true)
      by (vm_compute; reflexivity).
    rewrite forallb_forall in Hall. apply Z.eqb_eq. apply Hall. exact Hd. }
  refine (conj Hchoice (conj Hsame (conj (Hsame _ _) (conj Hhd
            (conj _ (conj _ (conj _ (conj _ _)))))))).
  - vm_compute. reflexivity.
  - assert (Hnaive : match run_algo naive 71 18 (Poly.const 2) with
                     | Ok r => (hd 0 r =? 1) = false
                     | _ => False
                     end) by (vm_compute; reflexivity).
    intros H. rewrite <- H in Hnaive.
    destruct (q_binomial 71 18 (Some (Poly.const 2))) as [r| |] eqn:E;
      try contradiction.
    apply Hhd in E. rewrite E in Hnaive. discriminate Hnaive.
  - vm_compute. reflexivity.
  - vm_compute. reflexivity.
  - vm_compute. reflexivity.
Qed.

(** ** The properties at concrete inputs *)

Lemma cyclotomic_contractb_sound (SG : Sage Z) (n q : Z) :
  cyclotomic_contractb SG n q = true -> cyclotomic_contract n q.
Proof.
  unfold cyclotomic_contractb, cyclotomic_contract. intros H i Hi.
  rewrite forallb_forall in H. apply Z.eqb_eq. apply H.
  apply in_range. lia.
Qed.

(** The examples of the docstrings. *)
Example q_binomial_5_1 :
  @q_binomial _ PU.value PU.sage 5 1 None = Ok [1; 1; 1; 1; 1].
Proof. vm_compute. reflexivity. Qed.

Example q_binomial_4_2 :
  @q_binomial _ PU.value PU.sage 4 2 (Some Poly.X) = Ok [1; 1; 2; 1; 1].
Proof. vm_compute. reflexivity. Qed.

Example q_binomial_5_1_at_2 (sr : bool) :
  @q_binomial _ ZU.value (ZU.sage sr 0) 5 1 (Some 2) = Ok 31.
Proof. destruct sr; vm_compute; reflexivity. Qed.

Example q_binomial_4_2_at_minus_1 (sr : bool) :
  @q_binomial _ ZU.value (ZU.sage sr 0) 4 2 (Some (-1)) = Ok 2.
Proof. destruct sr; vm_compute; reflexivity. Qed.

Example q_int_3 : @q_int _ PU.value PU.sage 3 None = Ok [1; 1; 1].
Proof. vm_compute. reflexivity. Qed.

Example q_factorial_3 : @q_factorial _ PU.value PU.sage 3 None = Ok [1; 2; 2; 1].
Proof. vm_compute. reflexivity. Qed.

Example q_factorial_minus_2 :
  @q_factorial _ PU.value PU.sage (-2) None
  = Raise (ValueError "Argument (%s) must be a nonnegative integer." [-2]).
Proof. reflexivity. Qed.

Example q_catalan_number_4 :
  @q_catalan_number _ PU.value PU.sage 4 None
  = Ok [1; 0; 1; 1; 2; 1; 2; 1; 2; 1; 1; 0; 1].
Proof. vm_compute. reflexivity. Qed.

Example q_catalan_number_4_at_1 :
  match @q_catalan_number _ PU.value PU.sage 4 None with
  | Ok c => Poly.eval c 1
  | _ => 0
  end = 14.
Proof. vm_compute. reflexivity. Qed.

Example q_int_minus_3_at_1 :
  @q_int _ ZU.value (ZU.sage false 0) (-3) (Some 1) = Ok (-3).
Proof. reflexivity. Qed.

(** [q_int(-3)] is [(-q^2 - q - 1)/q^3], which is not a polynomial. *)
Example q_int_minus_3 : @q_int _ PU.value PU.sage (-3) None = Escapes.
Proof. reflexivity. Qed.

Example q_jordan_partitions_of_5 :
  map (fun t => @q_jordan _ ZU.value t 2)
      [[5]; [4; 1]; [3; 2]; [3; 1; 1]; [2; 2; 1]; [2; 1; 1; 1]; [1; 1; 1; 1; 1]]
  = map (fun v => Some (Ok v)) [9765; 1029; 213; 93; 29; 9; 1].
Proof. vm_compute. reflexivity. Qed.

Example q_jordan_3_2_1 :
  @q_jordan _ PU.value [3; 2; 1] Poly.X = Some (Ok [1; 5; 14; 24; 16]).
Proof. vm_compute. reflexivity. Qed.

Example catalan_first : map catalan [0; 1; 2; 3; 4; 5; 6]%nat
                        = [1; 1; 2; 5; 14; 42; 132]%nat.
Proof. reflexivity. Qed.

Lemma q_binomial_at_one_witness :
  0 <= 2 <= 6 /\
  @q_binomial _ ZU.value (ZU.sage false 0) 6 2 (Some 1) = Ok 15.
Proof.
  split; [lia|].
  apply (q_binomial_at_one (ZU.sage false 0) 6 2).
  - lia.
  - reflexivity.
  - apply cyclotomic_contractb_sound. vm_compute. reflexivity.
Defined.

Lemma q_binomial_outside_range_witness :
  @q_binomial _ ZU.value (ZU.sage false 0) 4 5 (Some 2) = Ok 0 /\
  @q_binomial _ PU.value PU.sage 5 (-1) None = Ok [].
Proof.
  split.
  - apply (@q_binomial_outside_range _ ZU.value (ZU.sage false 0) 4 5 (Some 2)); lia.
  - apply (@q_binomial_outside_range _ PU.value PU.sage 5 (-1) None); lia.
Defined.

Lemma q_binomial_polynomial_choice_witness :
  @choose_algo _ PU.sage 71 18 Poly.X true = cyclo_polynomial /\
  @q_binomial _ PU.value PU.sage 71 18 None
  = @run_algo _ PU.value PU.sage cyclo_polynomial 71 18 Poly.X.
Proof.
  assert (H1 : 0 <= 71) by lia.
  assert (H2 : 0 <= 18 <= 71) by lia.
  assert (H3 : snd (@polynomiality_test _ PU.sage None) = true) by reflexivity.
  destruct (@q_binomial_polynomial_choice _ PU.value PU.sage 71 18 None H1 H2 H3)
    as [_ Hcyclo].
  apply Hcyclo. intros [H|H].
  - lia.
  - unfold Qle in H. simpl in H. lia.
Defined.

Lemma q_catalan_number_correct_witness :
  @q_catalan_number _ ZU.value (ZU.sage false 0) 4 (Some 1) = Ok 14.
Proof.
  apply (proj2 (proj2 q_catalan_number_correct) (ZU.sage false 0) 4). lia.
Defined.

Lemma q_jordan_single_part_witness :
  @q_jordan _ ZU.value [5] 3
  = Some (@q_factorial _ ZU.value (ZU.sage false 0) 5 (Some 3)).
Proof.
  apply (@q_jordan_single_part _ ZU.value (ZU.sage false 0) Z_value_laws 5 3).
  - lia.
  - reflexivity.
Defined.

Lemma q_jordan_rejects_one_witness :
  @q_jordan _ ZU.value [4; 3; 1] 1
  = Some (Raise (ValueError "q must not be equal to 1" [])).
Proof.
  apply (@q_jordan_rejects_one _ ZU.value [4; 3; 1] 1). reflexivity.
Defined.

Lemma q_jordan_terminates_witness :
  (exists r, @q_jordan _ ZU.value [3; 2; 1] 2 = Some r) /\
  (size [2; 2; 1]%Z + 1 = size [3; 2; 1]%Z)%nat.
Proof.
  destruct (@q_jordan_terminates _ ZU.value [3; 2; 1] 2) as [Hr [_ Hsize]].
  split; [exact Hr|].
  apply (Hsize 0%nat 2 [2; 2; 1]).
  - lia.
  - reflexivity.
  - reflexivity.
Defined.

Lemma q_binomial_extreme_k_witness :
  @q_binomial _ ZU.value (ZU.sage false 0) 5 0 (Some 1) = Ok 1 /\
  @q_binomial _ ZU.value (ZU.sage false 0) 5 5 (Some 1) = Ok 1.
Proof.
  destruct (@q_binomial_extreme_k _ ZU.value (ZU.sage false 0) 5 (Some 1))
    as [H0 [Hn _]].
  - lia.
  - reflexivity.
  - reflexivity.
  - split; [exact H0|exact Hn].
Defined.

(** * Further properties of the functions *)

(** ** q_int *)

(** [q_int(n, 1)] is [n], for every integer [n], negative ones
    included. *)
Theorem q_int_at_one (SG : Sage Z) (n : Z) : q_int n (Some 1) = Ok n.
Proof.
  unfold q_int. destruct (Z.geb_spec n 0) as [H|H].
  - f_equal. apply geometric_sum_at_one. lia.
  - change (pow_neg 1 n) with (ZU.pow_neg_int 1 n).
    change (ZU.pow_neg_int 1 n) with (@Ok Z 1). cbn [bind]. f_equal.
    change (- 1 * geometric_sum 1 (- n) = n).
    rewrite geometric_sum_at_one by lia. lia.
Qed.

Section QIntLaws.

Context {R : Type} {V : Value R} {SG : Sage R} {L : ValueLaws R}.
Local Open Scope value_scope.

Add Ring value_ring_qint : value_ring.

Lemma geometric_sum_shift (q : R) (n : Z) :
  (0 <= n)%Z -> geometric_sum q (n + 1) = one + q * geometric_sum q n.
Proof.
  revert n. apply natlike_ind.
  - rewrite geometric_sum_succ, geometric_sum_0, pow_0 by lia. ring.
  - intros n Hn IH. replace (Z.succ n) with (n + 1)%Z by lia.
    rewrite (geometric_sum_succ q (n + 1)) by lia.
    rewrite IH at 1. rewrite (geometric_sum_succ q n) by lia.
    rewrite pow_succ by lia. ring.
Qed.

(** For [n >= 0], [q_int(n, p)] returns a value [v] with
    [(p - 1) v = p^n - 1]: it is [(p^n - 1)/(p - 1)] where [p - 1] can be
    divided by, and is defined at [p = 1] as well. *)
Theorem q_int_closed_form (n : Z) (p : option R) :
  (0 <= n)%Z ->
  exists v : R,
    q_int n p = Ok v /\ (variable_of p - one) * v = variable_of p ** n - one.
Proof.
  intros Hn. exists (geometric_sum (variable_of p) n). split.
  - apply q_int_nonneg. exact Hn.
  - rewrite <- pow_minus_one by exact Hn. rewrite pow_0. reflexivity.
Qed.

(** [q_int(0, p)] is 0 and, for [n >= 0],
    [q_int(n+1, p) = 1 + p q_int(n, p)]. *)
Theorem q_int_recurrence (n : Z) (p : option R) :
  (0 <= n)%Z ->
  q_int 0 p = Ok zero /\
  exists a b : R,
    q_int n p = Ok a /\ q_int (n + 1) p = Ok b /\ b = one + variable_of p * a.
Proof.
  intros Hn. split.
  - rewrite q_int_nonneg by lia. reflexivity.
  - exists (geometric_sum (variable_of p) n), (geometric_sum (variable_of p) (n + 1)).
    rewrite !q_int_nonneg by lia.
    split; [reflexivity|]. split; [reflexivity|].
    apply geometric_sum_shift. exact Hn.
Qed.

End QIntLaws.

(** ** q_factorial *)

Section QFactorial.

Context {R : Type} {V : Value R} {SG : Sage R}.

(** [q_factorial(n, p)] raises [ValueError], with [n] in its message, for
    [n < 0] and returns a value otherwise, whatever the arithmetic does;
    the value is 1 for [n = 0], and that of [q_factorial(n+1, p)] is the
    product of those of [q_factorial(n, p)] and [q_int(n+1, p)]. *)
Theorem q_factorial_recurrence (p : option R) :
  (forall n : Z, n < 0 ->
     q_factorial n p
     = Raise (ValueError "Argument (%s) must be a nonnegative integer." [n])) /\
  q_factorial 0 p = Ok one /\
  (forall n : Z, 0 <= n ->
     exists a b : R,
       q_factorial n p = Ok a /\ q_int (n + 1) p = Ok b /\
       q_factorial (n + 1) p = Ok (mul a b)).
Proof.
  split; [|split].
  - intros n Hn. unfold q_factorial.
    destruct (Z.geb_spec n 0) as [H|_]; [lia|reflexivity].
  - rewrite q_factorial_nonneg by lia. reflexivity.
  - intros n Hn.
    exists (prod (map (geometric_sum (variable_of p)) (range 1 (n + 1)))),
           (geometric_sum (variable_of p) (n + 1)).
    rewrite !q_factorial_nonneg, q_int_nonneg by lia.
    split; [reflexivity|]. split; [reflexivity|].
    rewrite (range_snoc 1 (n + 1)) by lia.
    rewrite map_app. simpl map. unfold prod. rewrite fold_left_app. reflexivity.
Qed.

End QFactorial.

(** [q_factorial(n, 1)] is [n!]. *)
Theorem q_factorial_at_one (SG : Sage Z) (n : Z) :
  0 <= n -> q_factorial n (Some 1) = Ok (Z.of_nat (fact (Z.to_nat n))).
Proof.
  intros Hn. rewrite q_factorial_nonneg by exact Hn. f_equal.
  cbn [variable_of]. rewrite prod_geometric_at_one by lia.
  rewrite <- prod_range_fact. rewrite Z2Nat.id by exact Hn. reflexivity.
Qed.

(** ** q_binomial *)

(** The indices the cyclotomic algorithms select are those [d] from 2 to
    [n] for which the addition of [k] and [n - k] carries at [d]: the
    remainder of [n] is less than that of [k]. *)
Theorem cyclo_indices_carry (n k d : Z) :
  In d (cyclo_indices n k) <-> 2 <= d <= n /\ n mod d < k mod d.
Proof.
  unfold cyclo_indices. rewrite filter_In, in_range. split.
  - intros [Hd Hc]. split; [lia|].
    rewrite !floor_div_pos in Hc by lia.
    apply negb_true_iff, Z.eqb_neq in Hc.
    Z.to_euclidean_division_equations. nia.
  - intros [Hd Hc]. split; [lia|].
    rewrite !floor_div_pos by lia.
    apply negb_true_iff, Z.eqb_neq.
    Z.to_euclidean_division_equations. nia.
Qed.

Lemma cyclo_indices_symmetry (n k : Z) :
  cyclo_indices n (n - k) = cyclo_indices n k.
Proof.
  unfold cyclo_indices. apply filter_ext. intros d.
  replace (n - (n - k)) with k by lia.
  rewrite (Z.add_comm (floor_div (n - k) d)). reflexivity.
Qed.

Lemma cyclo_indices_min (n k : Z) :
  cyclo_indices n (Z.min (n - k) k) = cyclo_indices n k.
Proof.
  destruct (Z.min_spec (n - k) k) as [[_ E]|[_ E]]; rewrite E.
  - apply cyclo_indices_symmetry.
  - reflexivity.
Qed.

(** On the integers [q_binomial] fails for [n < 0] only, with
    [ValueError]; for [n >= 0] it returns a value for all [k] and [q],
    roots of unity included: it never divides by zero. *)
Theorem q_binomial_total_on_integers (SG : Sage Z) (n k : Z) (q : option Z) :
  (n < 0 -> q_binomial n k q = Raise (ValueError "n must be nonnegative" [])) /\
  (0 <= n -> exists v : Z, q_binomial n k q = Ok v).
Proof.
  split; intros Hn; unfold q_binomial.
  - destruct (Z.ltb_spec n 0) as [_|H]; [reflexivity|lia].
  - destruct (Z.ltb_spec n 0) as [H|_]; [lia|].
    destruct (negb _); [exists 0; reflexivity|].
    destruct (polynomiality_test q) as [q' b].
    destruct (choose_algo _ _ _ _); cbn [run_algo].
    + destruct (denomin _ q' == zero)%V eqn:Hz.
      * eexists. reflexivity.
      * unfold naive_quotient.
        change (floordiv (numerat n (Z.min (n - k) k) q') (denomin (Z.min (n - k) k) q'))
          with (ZU.floordiv_int (numerat n (Z.min (n - k) k) q')
                                (denomin (Z.min (n - k) k) q')).
        unfold ZU.floordiv_int.
        change ((denomin (Z.min (n - k) k) q' =? 0) = false) in Hz.
        rewrite Hz. eexists. reflexivity.
    + eexists. reflexivity.
    + eexists. reflexivity.
Qed.

Section QBinomialLaws.

Context {R : Type} {V : Value R} {SG : Sage R} {L : ValueLaws R}.
Local Open Scope value_scope.

Add Ring value_ring_binomial : value_ring.

(** For [0 <= k <= n] and a [q] for which the naive or the generic
    cyclotomic algorithm is chosen ([q] is not a polynomial, or
    [n <= 70], or [4 min(n-k, k) <= n]), [q_binomial(n, k, q)] returns the
    product [c] of the selected cyclotomic values, and [c] satisfies the
    defining formula: the product of [1 - q^i] for [i] from [n-k+1] to
    [n] is [c] times the product of [1 - q^i] for [i] from 1 to [k]. *)
Theorem q_binomial_product_formula (n k : Z) (q : R) :
  (0 <= k <= n)%Z -> cyclotomic_contract n q ->
  isinstance_Polynomial q = false \/ (n <= 70)%Z \/ (4 * Z.min (n - k) k <= n)%Z ->
  exists c : R,
    q_binomial n k (Some q) = Ok c /\
    c = prod (map (fun d => cyclotomic_value d q) (cyclo_indices n k)) /\
    numerat n k q = denomin k q * c.
Proof.
  intros Hk Hc Hsel.
  exists (prod (map (fun d => cyclotomic_value d q) (cyclo_indices n k))).
  split; [|split].
  - rewrite q_binomial_in_range by lia.
    cbn [polynomiality_test fst snd].
    set (k' := Z.min (n - k) k).
    assert (Hk' : (0 <= k' <= n)%Z) by (unfold k'; lia).
    assert (Hrun : run_algo (choose_algo n k' q (isinstance_Polynomial q)) n k' q
                   = run_cyclo_generic n k' q).
    { unfold choose_algo. rewrite quarter_test.
      destruct (isinstance_Polynomial q) eqn:Hp.
      - assert (Hb : (n <=? 70)%Z || (4 * k' <=? n)%Z = true).
        { apply orb_true_iff. destruct Hsel as [H|[H|H]].
          - discriminate.
          - left. apply Z.leb_le. exact H.
          - right. apply Z.leb_le. exact H. }
        rewrite Hb. apply naive_is_cyclo_generic; assumption.
      - destruct (in_SR q).
        + reflexivity.
        + apply naive_is_cyclo_generic; assumption. }
    rewrite Hrun. unfold run_cyclo_generic, k'.
    rewrite cyclo_indices_min. reflexivity.
  - reflexivity.
  - apply (numerat_factorization n q Hc k Hk).
Qed.

(** For [n >= 1] and [q] other than 1, polynomial or not symbolic,
    [q_binomial(n, 1, q)] is [q_int(n, q)]. *)
Theorem q_binomial_k_one (n : Z) (q : option R) :
  (1 <= n)%Z -> eqb (variable_of q) one = false ->
  snd (polynomiality_test q) = true \/ in_SR (variable_of q) = false ->
  q_binomial n 1 q = q_int n q.
Proof.
  intros Hn Hq Hsel.
  assert (Hfst : fst (polynomiality_test q) = variable_of q)
    by (destruct q; reflexivity).
  assert (Hq1 : variable_of q <> one).
  { intros E. apply eqb_eq in E. rewrite E in Hq. discriminate. }
  assert (H10 : one <> zero :> R).
  { intros E. apply Hq1.
    transitivity (variable_of q * one); [ring|]. rewrite E. ring. }
  rewrite q_binomial_in_range, q_int_nonneg, Hfst by lia.
  set (x := variable_of q) in *.
  set (k' := Z.min (n - 1) 1).
  assert (Hnaive : choose_algo n k' x (snd (polynomiality_test q)) = naive).
  { unfold choose_algo. rewrite quarter_test.
    destruct Hsel as [H|H]; rewrite H.
    - assert (Hb : (n <=? 70)%Z || (4 * k' <=? n)%Z = true).
      { apply orb_true_iff.
        destruct (Z.le_gt_cases n 70) as [H70|H70].
        - left. apply Z.leb_le. exact H70.
        - right. apply Z.leb_le. unfold k'. lia. }
      rewrite Hb. reflexivity.
    - destruct (snd (polynomiality_test q)).
      + assert (Hb : (n <=? 70)%Z || (4 * k' <=? n)%Z = true).
        { apply orb_true_iff.
          destruct (Z.le_gt_cases n 70) as [H70|H70].
          - left. apply Z.leb_le. exact H70.
          - right. apply Z.leb_le. unfold k'. lia. }
        rewrite Hb. reflexivity.
      + reflexivity. }
  rewrite Hnaive. unfold run_algo, naive_quotient.
  destruct (Z.eq_dec n 1) as [E|E].
  - subst n. change k' with 0%Z.
    unfold denomin, numerat. rewrite !range_nil by lia.
    change (prod (map _ [])) with (@one R V).
    assert (Hz : (@one R V == zero) = false).
    { apply not_true_is_false. intros Ht. apply eqb_eq in Ht. contradiction. }
    rewrite Hz.
    replace (@one R V) with (one * geometric_sum x 1) at 1.
    + rewrite floordiv_exact by exact H10. reflexivity.
    + change 1%Z with (0 + 1)%Z.
      rewrite geometric_sum_succ, geometric_sum_0, pow_0 by lia. ring.
  - replace k' with 1%Z by (unfold k'; lia).
    assert (Hden : denomin 1 x = one - x).
    { unfold denomin. change (range 1 (1 + 1)) with [1%Z].
      unfold prod. simpl. rewrite pow_1. ring. }
    assert (Hnum : numerat n 1 x = (one - x) * geometric_sum x n).
    { unfold numerat. replace (n - 1 + 1)%Z with n by lia.
      rewrite (range_cons n (n + 1)), (range_nil (n + 1) (n + 1)) by lia.
      unfold prod. simpl. rewrite one_minus_pow by lia. ring. }
    rewrite Hden, Hnum.
    assert (Hnz : one - x <> zero).
    { intros E'. apply Hq1. transitivity (x + zero); [ring|].
      rewrite <- E'. ring. }
    assert (Hz : (one - x == zero) = false).
    { apply not_true_is_false. intros Ht. apply eqb_eq in Ht. contradiction. }
    rewrite Hz, floordiv_exact by exact Hnz. reflexivity.
Qed.

End QBinomialLaws.

(** ** q_catalan_number *)

Lemma prod_with_zero (l : list Z) : In 0 l -> prod l = 0.
Proof.
  induction l as [|a l IH]; intros H.
  - contradiction.
  - rewrite prod_cons. change (a * prod l = 0).
    destruct H as [H|H].
    + subst a. reflexivity.
    + rewrite IH by exact H. lia.
Qed.

Lemma truediv_int_ok (a b c : Z) :
  ZU.truediv_int a b = Ok c -> b <> 0 /\ a = b * c.
Proof.
  unfold ZU.truediv_int. destruct (Z.eqb_spec b 0) as [|Hb]; [discriminate|].
  destruct (Z.eqb_spec (a mod b) 0) as [Hm|]; [|discriminate].
  intros H. injection H as <-. split; [exact Hb|].
  apply Z.div_exact; assumption.
Qed.

(** [q_catalan_number(n, -1)] raises [ZeroDivisionError] for [n >= 2]:
    the denominator contains [q_int(2, -1) = 0]. *)
Theorem q_catalan_number_at_minus_one (SG : Sage Z) (n : Z) :
  2 <= n -> q_catalan_number n (Some (-1)) = Raise ZeroDivisionError.
Proof.
  intros Hn. rewrite q_catalan_number_nonneg by lia. cbn [variable_of].
  rewrite (prod_with_zero (map (geometric_sum (-1)) (range 2 (n + 1)))).
  - change (ZU.truediv_int
              (prod (map (geometric_sum (-1)) (range (n + 2) (2 * n + 1)))) 0
            = Raise ZeroDivisionError).
    reflexivity.
  - apply in_map_iff. exists 2. split; [reflexivity|].
    apply in_range. lia.
Qed.

(** On the integers, when [q_catalan_number(n, q)] returns [c], then
    [q_int(n+1, q)] times [c] is [q_binomial(2n, n, q)]: the q-Catalan
    number is the one written with the q-binomial coefficient. *)
Theorem q_catalan_number_q_binomial (SG : Sage Z) (n q c : Z) :
  0 <= n -> isinstance_Polynomial q = false -> cyclotomic_contract (2 * n) q ->
  q_catalan_number n (Some q) = Ok c ->
  exists B i : Z,
    q_binomial (2 * n) n (Some q) = Ok B /\ q_int (n + 1) (Some q) = Ok i /\
    i * c = B.
Proof.
  intros Hn Hpoly Hc Hcat.
  destruct (q_binomial_product_formula (2 * n) n q ltac:(lia) Hc (or_introl Hpoly))
    as [B [HB [HBdef _]]].
  exists B, (geometric_sum q (n + 1)).
  split; [exact HB|]. split; [apply q_int_nonneg; lia|].
  rewrite q_catalan_number_nonneg in Hcat by exact Hn. cbn [variable_of] in Hcat.
  apply truediv_int_ok in Hcat. destruct Hcat as [Hden Hnum].
  pose proof (cyclo_factorization (2 * n) q Hc n ltac:(lia)) as Hf.
  cbv zeta in Hf. rewrite <- HBdef in Hf.
  replace (2 * n - n + 1) with (n + 1) in Hf by lia.
  destruct (Z.eq_dec n 0) as [E|E].
  - subst n. rewrite !range_nil in * by lia.
    change (1 = 1 * B) in Hf. change (1 = 1 * c) in Hnum.
    change (geometric_sum q 1 * c = B).
    change (geometric_sum q 1) with (0 + q ^ 0). rewrite Z.pow_0_r. lia.
  - rewrite (range_cons (n + 1) (2 * n + 1)) in Hf by lia.
    rewrite (range_cons 1 (n + 1)) in Hf by lia.
    replace (n + 1 + 1) with (n + 2) in Hf by lia. change (1 + 1) with 2 in Hf.
    simpl map in Hf. rewrite !prod_cons in Hf.
    set (N := prod (map (geometric_sum q) (range (n + 2) (2 * n + 1)))) in *.
    set (D := prod (map (geometric_sum q) (range 2 (n + 1)))) in *.
    change (geometric_sum q 1) with (0 + q ^ 0) in Hf. rewrite Z.pow_0_r in Hf.
    change (geometric_sum q (n + 1) * N = (0 + 1) * D * B) in Hf.
    change (N = D * c) in Hnum.
    apply (Z.mul_reg_l _ _ D); [exact Hden|].
    rewrite Hnum in Hf. lia.
Qed.

(** ** q_jordan on partitions *)

Lemma nth_weakly_decreasing (t : list Z) :
  weakly_decreasing t = true ->
  forall i : nat, 0 <= nth i t 0 /\ nth (S i) t 0 <= nth i t 0.
Proof.
  induction t as [|a l IH]; intros H i.
  - destruct i; simpl; lia.
  - destruct i as [|i].
    + destruct l as [|b l].
      * cbn [weakly_decreasing] in H. apply Z.leb_le in H. simpl. lia.
      * pose proof (weakly_decreasing_head _ _ _ H). simpl. lia.
    + apply (IH (weakly_decreasing_tail _ _ H) i).
Qed.

Lemma weakly_decreasing_cons (a b : Z) (l : list Z) :
  0 <= b <= a -> weakly_decreasing (b :: l) = true ->
  weakly_decreasing (a :: b :: l) = true.
Proof.
  intros Hab H. change (weakly_decreasing (a :: b :: l))
    with ((0 <=? a) && (b <=? a) && weakly_decreasing (b :: l)).
  rewrite H. destruct (Z.leb_spec 0 a), (Z.leb_spec b a); simpl; lia || reflexivity.
Qed.

(** Decrementing a part that exceeds the next one leaves a weakly
    decreasing list. *)
Lemma weakly_decreasing_decrement (t : list Z) :
  weakly_decreasing t = true ->
  forall i : nat, nth i t 0 > nth (S i) t 0 ->
    weakly_decreasing (decrement t i) = true.
Proof.
  induction t as [|a l IH]; intros H i Hi.
  - reflexivity.
  - destruct i as [|i].
    + cbn [decrement]. destruct l as [|b l].
      * simpl in Hi. cbn [weakly_decreasing]. apply Z.leb_le. lia.
      * pose proof (weakly_decreasing_head _ _ _ H). simpl in Hi.
        apply weakly_decreasing_cons; [lia|].
        apply (weakly_decreasing_tail a). exact H.
    + cbn [decrement].
      pose proof (IH (weakly_decreasing_tail _ _ H) i Hi) as Hd.
      destruct l as [|b l].
      * exact H.
      * pose proof (weakly_decreasing_head _ _ _ H) as Hab.
        destruct i as [|i]; cbn [decrement] in *.
        -- simpl in Hi.
           pose proof (nth_weakly_decreasing _ (weakly_decreasing_tail _ _ H) 1%nat) as Hn.
           simpl in Hn.
           apply weakly_decreasing_cons; [lia|exact Hd].
        -- apply weakly_decreasing_cons; [lia|exact Hd].
Qed.

Lemma weakly_decreasing_before_first_zero (l : list Z) :
  weakly_decreasing l = true -> weakly_decreasing (before_first_zero l) = true.
Proof.
  induction l as [|a l IH]; intros H.
  - reflexivity.
  - cbn [before_first_zero]. destruct (Z.eqb_spec a 0) as [E|E]; [reflexivity|].
    pose proof (IH (weakly_decreasing_tail _ _ H)) as Hl.
    destruct l as [|b l].
    + exact H.
    + pose proof (weakly_decreasing_head _ _ _ H) as Hab.
      cbn [before_first_zero] in *. destruct (Z.eqb_spec b 0) as [Eb|Eb].
      * cbn [weakly_decreasing]. apply Z.leb_le. lia.
      * apply weakly_decreasing_cons; [lia|exact Hl].
Qed.

Lemma range_down_succ (m : nat) : range_down (S m) = m :: range_down m.
Proof. unfold range_down. rewrite seq_S, rev_app_distr. reflexivity. Qed.

Section JordanLaws.

Context {R : Type} {V : Value R} {L : ValueLaws R}.
Local Open Scope value_scope.

Add Ring value_ring_jordan : value_ring.

Variable q : R.
Hypothesis q_not_one : eqb q one = false.

(** The quotient the loop of [q_jordan] multiplies by. *)
Lemma jordan_quotient_general (ti tj : Z) :
  (0 <= tj <= ti)%Z ->
  floordiv (q ** ti - q ** tj) (q - one)
  = Ok (q ** tj * geometric_sum q (ti - tj)).
Proof.
  intros H.
  replace (q ** ti - q ** tj)
    with ((q - one) * (q ** tj * geometric_sum q (ti - tj))).
  - apply floordiv_exact. apply q_minus_one_nonzero. exact q_not_one.
  - replace ti with (tj + (ti - tj))%Z at 2 by lia.
    rewrite pow_add by lia.
    transitivity (q ** tj * ((q - one) * geometric_sum q (ti - tj))); [ring|].
    rewrite <- pow_minus_one by lia. rewrite pow_0. ring.
Qed.

(** A pass of the loop that leaves the state as it is. *)
Lemma q_jordan_loop_idle rec (t : partition) (tj : Z) (res : R) (l : list nat) :
  (forall i, In i l -> (nth i t 0 <= tj)%Z) ->
  fold_left (q_jordan_step rec t q) l (Some (Ok (tj, res))) = Some (Ok (tj, res)).
Proof.
  induction l as [|i l IH]; intros H.
  - reflexivity.
  - simpl fold_left. cbn [q_jordan_step].
    destruct (Z.gtb_spec (nth i t 0) tj) as [Hgt|_].
    + specialize (H i (or_introl eq_refl)). lia.
    + apply IH. intros j Hj. apply H. right. exact Hj.
Qed.

Section Loop.

Variable rec : partition -> option (result R).
Variable t : partition.
Hypothesis t_valid : weakly_decreasing t = true.
Hypothesis rec_returns :
  forall tp : partition,
    weakly_decreasing tp = true -> (size tp < size t)%nat ->
    exists v : R, rec tp = Some (Ok v).

Lemma q_jordan_step_returns (m : nat) (res : R) :
  exists res' : R,
    q_jordan_step rec t q (Some (Ok (nth (S m) t 0%Z, res))) m
    = Some (Ok (nth m t 0%Z, res')).
Proof.
  destruct (nth_weakly_decreasing t t_valid m) as [_ Hle].
  destruct (nth_weakly_decreasing t t_valid (S m)) as [H0 _].
  cbn [q_jordan_step].
  destruct (Z.gtb_spec (nth m t 0%Z) (nth (S m) t 0%Z)) as [Hgt|Hngt].
  - pose proof (weakly_decreasing_decrement t t_valid m ltac:(lia)) as Hd.
    unfold Partition. rewrite Hd.
    destruct (rec_returns (before_first_zero (decrement t m))) as [v Hv].
    + apply weakly_decreasing_before_first_zero. exact Hd.
    + assert (HP : Partition (decrement t m) = Ok (before_first_zero (decrement t m)))
        by (unfold Partition; rewrite Hd; reflexivity).
      pose proof (recursive_call_smaller t _ m (nth (S m) t 0%Z) H0 ltac:(lia) HP).
      lia.
    + rewrite Hv. cbn [bind]. rewrite jordan_quotient_general by lia.
      cbn [bind]. eexists. reflexivity.
  - replace (nth (S m) t 0%Z) with (nth m t 0%Z) by lia.
    exists res. reflexivity.
Qed.

Lemma q_jordan_loop_returns (m : nat) :
  forall res : R,
  exists (tj' : Z) (res' : R),
    fold_left (q_jordan_step rec t q) (range_down m) (Some (Ok (nth m t 0%Z, res)))
    = Some (Ok (tj', res')).
Proof.
  induction m as [|m IH]; intros res.
  - exists (nth 0 t 0%Z), res. reflexivity.
  - rewrite range_down_succ. cbn [fold_left].
    destruct (q_jordan_step_returns m res) as [res' Hstep].
    rewrite Hstep. apply IH.
Qed.

End Loop.

Lemma q_jordan_rec_returns (fuel : nat) :
  forall t : partition,
    weakly_decreasing t = true -> (size t < fuel)%nat ->
    exists v : R, q_jordan_rec fuel t q = Some (Ok v).
Proof.
  induction fuel as [|fuel IH]; intros t Ht Hsz; [lia|].
  cbn [q_jordan_rec]. rewrite q_not_one.
  destruct (List.length t =? 0)%nat; [exists one; reflexivity|].
  destruct (q_jordan_loop_returns (fun tp => q_jordan_rec fuel tp q) t Ht
              ltac:(intros tp Htp Hlt; apply IH; [exact Htp|lia])
              (List.length t) zero) as [tj' [res' Hloop]].
  rewrite (nth_overflow t 0%Z (Nat.le_refl _)) in Hloop.
  rewrite Hloop. exists res'. reflexivity.
Qed.

(** For a weakly decreasing list of non-negative parts [t] and [q] other
    than 1, [q_jordan(t, q)] returns a value: every list handed to
    [Partition] for a recursive call is again weakly decreasing, so
    [Partition] accepts it, and every division by [q - 1] is exact. *)
Theorem q_jordan_returns (t : partition) :
  weakly_decreasing t = true ->
  (exists v : R, q_jordan t q = Some (Ok v)) /\
  (forall i : nat, (nth i t 0 > nth (S i) t 0)%Z ->
     exists tp : partition,
       Partition (decrement t i) = Ok tp /\ weakly_decreasing tp = true).
Proof.
  intros Ht. split.
  - apply q_jordan_rec_returns; [exact Ht|lia].
  - intros i Hi. exists (before_first_zero (decrement t i)).
    pose proof (weakly_decreasing_decrement t Ht i Hi) as Hd.
    split.
    + unfold Partition. rewrite Hd. reflexivity.
    + apply weakly_decreasing_before_first_zero. exact Hd.
Qed.

End JordanLaws.

Lemma nth_repeat_one_le (m i : nat) : nth i (repeat 1 m) 0 <= 1.
Proof.
  revert i. induction m as [|m IH]; intros i.
  - destruct i; simpl; lia.
  - destruct i as [|i]; simpl; [lia|apply IH].
Qed.

Lemma nth_repeat_one_last (m : nat) : nth m (repeat 1 (S m)) 0 = 1.
Proof. induction m as [|m IH]; [reflexivity|exact IH]. Qed.

Lemma decrement_repeat_one (m : nat) :
  decrement (repeat 1 (S m)) m = repeat 1 m ++ [0].
Proof.
  induction m as [|m IH]; [reflexivity|].
  change (1 :: decrement (repeat 1 (S m)) m = 1 :: (repeat 1 m ++ [0])).
  rewrite IH. reflexivity.
Qed.

Lemma weakly_decreasing_repeat_one (m : nat) :
  weakly_decreasing (repeat 1 m ++ [0]) = true.
Proof.
  induction m as [|m IH]; [reflexivity|].
  destruct m as [|m]; [reflexivity|].
  apply (weakly_decreasing_cons 1 1); [lia|exact IH].
Qed.

Lemma before_first_zero_repeat_one (m : nat) :
  before_first_zero (repeat 1 m ++ [0]) = repeat 1 m.
Proof.
  induction m as [|m IH]; [reflexivity|].
  simpl. rewrite IH. reflexivity.
Qed.

Lemma size_repeat_one (m : nat) : size (repeat 1 m) = m.
Proof. induction m as [|m IH]; [reflexivity|]. simpl. rewrite IH. lia. Qed.

Section JordanOnes.

Context {R : Type} {V : Value R} {L : ValueLaws R}.
Local Open Scope value_scope.

Add Ring value_ring_ones : value_ring.

Variable q : R.
Hypothesis q_not_one : eqb q one = false.

Lemma q_jordan_rec_all_ones (m : nat) :
  forall fuel : nat, (m < fuel)%nat ->
    q_jordan_rec fuel (repeat 1%Z m) q = Some (Ok one).
Proof.
  induction m as [|m IH]; intros fuel Hf;
    (destruct fuel as [|fuel]; [lia|]).
  - cbn [q_jordan_rec repeat List.length Nat.eqb]. rewrite q_not_one. reflexivity.
  - cbn [q_jordan_rec]. rewrite q_not_one, repeat_length.
    cbn [Nat.eqb]. rewrite range_down_succ. cbn [fold_left q_jordan_step].
    rewrite nth_repeat_one_last. change (1 >? 0)%Z with true. cbv iota.
    rewrite decrement_repeat_one. unfold Partition.
    rewrite weakly_decreasing_repeat_one, before_first_zero_repeat_one.
    rewrite IH by lia. cbn [bind].
    rewrite (jordan_quotient_general q q_not_one 1 0) by lia. cbn [bind].
    rewrite q_jordan_loop_idle.
    + cbn [bind snd]. f_equal. f_equal.
      change (1 - 0)%Z with (0 + 1)%Z.
      rewrite geometric_sum_succ, geometric_sum_0, pow_0 by lia. ring.
    + intros i _. apply nth_repeat_one_le.
Qed.

(** For [q] other than 1, [q_jordan] is 1 on every partition whose parts
    are all 1, the empty one included. *)
Theorem q_jordan_all_ones (m : nat) :
  q_jordan (repeat 1%Z m) q = Some (Ok one).
Proof.
  unfold q_jordan. apply q_jordan_rec_all_ones.
  rewrite size_repeat_one. lia.
Qed.

End JordanOnes.

(** ** qt_catalan_number *)

Lemma key_eqb_eq (a b : Z * Z) : key_eqb a b = true <-> a = b.
Proof.
  destruct a as [a1 a2], b as [b1 b2]. unfold key_eqb. simpl.
  rewrite andb_true_iff, !Z.eqb_eq. split.
  - intros [-> ->]. reflexivity.
  - intros E. injection E as -> ->. split; reflexivity.
Qed.

Lemma key_eqb_refl (a : Z * Z) : key_eqb a a = true.
Proof. apply key_eqb_eq. reflexivity. Qed.

Lemma key_eqb_trans_false (k a b : Z * Z) :
  key_eqb k a = true -> key_eqb a b = false -> key_eqb k b = false.
Proof.
  intros H1 H2. apply key_eqb_eq in H1. subst k. exact H2.
Qed.

Lemma dict_get_set_same (d : dict) (key : Z * Z) (v default : Z) :
  dict_get (dict_set d key v) key default = v.
Proof.
  induction d as [|[k x] d IH]; simpl.
  - rewrite key_eqb_refl. reflexivity.
  - destruct (key_eqb k key) eqn:E; simpl; rewrite E; [reflexivity|exact IH].
Qed.

Lemma dict_get_set_other (d : dict) (key key' : Z * Z) (v default : Z) :
  key_eqb key key' = false ->
  dict_get (dict_set d key v) key' default = dict_get d key' default.
Proof.
  intros Hne. induction d as [|[k x] d IH]; simpl.
  - rewrite Hne. reflexivity.
  - destruct (key_eqb k key) eqn:E; simpl.
    + rewrite (key_eqb_trans_false k key key' E Hne). reflexivity.
    + destruct (key_eqb k key'); [reflexivity|exact IH].
Qed.

Lemma dict_set_keys (d : dict) (key : Z * Z) (v : Z) :
  map fst (dict_set d key v) = map fst d
  \/ (~ In key (map fst d) /\ map fst (dict_set d key v) = map fst d ++ [key]).
Proof.
  induction d as [|[k x] d IH]; simpl.
  - right. split; [tauto|reflexivity].
  - destruct (key_eqb k key) eqn:E; simpl.
    + left. reflexivity.
    + destruct IH as [IH|[Hn IH]].
      * left. rewrite IH. reflexivity.
      * right. split.
        -- intros [H|H]; [|contradiction].
           subst k. rewrite key_eqb_refl in E. discriminate.
        -- rewrite IH. reflexivity.
Qed.

Lemma dict_set_nodup (d : dict) (key : Z * Z) (v : Z) :
  NoDup (map fst d) -> NoDup (map fst (dict_set d key v)).
Proof.
  intros H. destruct (dict_set_keys d key v) as [E|[Hn E]]; rewrite E.
  - exact H.
  - apply NoDup_app.
    + exact H.
    + constructor; [intros []|constructor].
    + intros a Ha [Hb|[]]. subst a. contradiction.
Qed.

Lemma dict_set_values (d : dict) (key : Z * Z) (v : Z) :
  1 <= v -> (forall kv, In kv d -> 1 <= snd kv) ->
  forall kv, In kv (dict_set d key v) -> 1 <= snd kv.
Proof.
  intros Hv. induction d as [|[k x] d IH]; intros H kv; simpl.
  - intros [<-|[]]. exact Hv.
  - destruct (key_eqb k key); simpl.
    + intros [<-|Hin]; [exact Hv|]. apply H. right. exact Hin.
    + intros [<-|Hin].
      * apply (H (k, x)). left. reflexivity.
      * apply IH; [|exact Hin]. intros kv' Hkv'. apply H. right. exact Hkv'.
Qed.

Lemma dict_get_nonneg (d : dict) (key : Z * Z) :
  (forall kv, In kv d -> 1 <= snd kv) -> 0 <= dict_get d key 0.
Proof.
  induction d as [|[k x] d IH]; intros H; simpl.
  - lia.
  - destruct (key_eqb k key).
    + specialize (H (k, x) (or_introl eq_refl)). simpl in H. lia.
    + apply IH. intros kv Hkv. apply H. right. exact Hkv.
Qed.

Lemma dict_total_increment (d : dict) (key : Z * Z) :
  dict_total (dict_set d key (dict_get d key 0 + 1)) = dict_total d + 1.
Proof.
  induction d as [|[k x] d IH]; simpl.
  - reflexivity.
  - destruct (key_eqb k key); simpl.
    + lia.
    + rewrite IH. lia.
Qed.

Section QtCatalanProperties.

Variable DyckWord : Type.
Variable DyckWords : Z -> list DyckWord.
Variable area : DyckWord -> Z.
Variable bounce : DyckWord -> Z.

Lemma qt_tally_loop_get (l : list DyckWord) :
  forall (d : dict) (key : Z * Z),
    dict_get (fold_left (qt_tally DyckWord area bounce) l d) key 0
    = dict_get d key 0
      + Z.of_nat (count (fun dw => key_eqb (area dw, bounce dw) key) l).
Proof.
  induction l as [|dw l IH]; intros d key.
  - unfold count. simpl. lia.
  - cbn [fold_left]. rewrite IH. unfold qt_tally, count. cbn [filter].
    destruct (key_eqb (area dw, bounce dw) key) eqn:E.
    + apply key_eqb_eq in E. rewrite <- E.
      rewrite dict_get_set_same. cbn [List.length]. lia.
    + rewrite dict_get_set_other by exact E. lia.
Qed.

Lemma qt_tally_loop_invariant (l : list DyckWord) :
  forall d : dict,
    NoDup (map fst d) -> (forall kv, In kv d -> 1 <= snd kv) ->
    let d' := fold_left (qt_tally DyckWord area bounce) l d in
    NoDup (map fst d') /\ (forall kv, In kv d' -> 1 <= snd kv) /\
    dict_total d' = dict_total d + Z.of_nat (List.length l).
Proof.
  induction l as [|dw l IH]; intros d Hnd Hpos.
  - simpl. repeat split; [exact Hnd|exact Hpos|lia].
  - cbn [fold_left]. cbv zeta.
    destruct (IH (qt_tally DyckWord area bounce d dw)) as [H1 [H2 H3]].
    + apply dict_set_nodup. exact Hnd.
    + apply dict_set_values; [|exact Hpos].
      pose proof (dict_get_nonneg d (area dw, bounce dw) Hpos). lia.
    + split; [exact H1|]. split; [exact H2|].
      rewrite H3. unfold qt_tally. rewrite dict_total_increment.
      cbn [List.length]. lia.
Qed.

(** [qt_catalan_number(n)] raises [ValueError] for [n < 0]; for [n >= 0]
    the coefficient of [q^a t^b] in the polynomial it returns is the
    number of Dyck words of semilength [n] of area [a] and bounce [b],
    0 when there is none. *)
Theorem qt_catalan_number_coefficient (n : Z) :
  (n < 0 ->
   qt_catalan_number DyckWord DyckWords area bounce n
   = Raise (ValueError "Argument (%s) must be a nonnegative integer." [n])) /\
  (0 <= n ->
   exists d : dict,
     qt_catalan_number DyckWord DyckWords area bounce n = Ok d /\
     forall a b : Z,
       dict_get d (a, b) 0
       = Z.of_nat (count (fun dw => (area dw =? a) && (bounce dw =? b))
                         (DyckWords n))).
Proof.
  unfold qt_catalan_number. split; intros Hn.
  - destruct (Z.geb_spec n 0) as [H|_]; [lia|reflexivity].
  - destruct (Z.geb_spec n 0) as [_|H]; [|lia].
    eexists. split; [reflexivity|]. intros a b.
    rewrite qt_tally_loop_get. reflexivity.
Qed.

(** For [n >= 0] the dictionary of coefficients [qt_catalan_number(n)]
    builds has one entry per key, every entry is at least 1, and the
    entries add up to the number of Dyck words of semilength [n]: that
    number is the value of the polynomial at [q = t = 1]. *)
Theorem qt_catalan_number_total (n : Z) :
  0 <= n ->
  exists d : dict,
    qt_catalan_number DyckWord DyckWords area bounce n = Ok d /\
    NoDup (map fst d) /\ (forall kv, In kv d -> 1 <= snd kv) /\
    dict_total d = Z.of_nat (List.length (DyckWords n)).
Proof.
  intros Hn. unfold qt_catalan_number.
  destruct (Z.geb_spec n 0) as [_|H]; [|lia].
  eexists. split; [reflexivity|].
  destruct (qt_tally_loop_invariant (DyckWords n) []) as [H1 [H2 H3]].
  - constructor.
  - intros kv [].
  - split; [exact H1|]. split; [exact H2|]. exact H3.
Qed.

End QtCatalanProperties.

(** ** q_binomial and q_factorial *)

Section BinomialFactorial.

Context {R : Type} {V : Value R} {SG : Sage R} {L : ValueLaws R}.
Local Open Scope value_scope.

Add Ring value_ring_binfact : value_ring.

(** For [0 <= k <= n] and a [q] for which the naive or the generic
    cyclotomic algorithm is chosen, [q_factorial(n, q)] is the product of
    [q_binomial(n, k, q)], [q_factorial(k, q)] and [q_factorial(n-k, q)]. *)
Theorem q_binomial_q_factorial (n k : Z) (q : R) :
  (0 <= k <= n)%Z -> cyclotomic_contract n q ->
  isinstance_Polynomial q = false \/ (n <= 70)%Z \/ (4 * Z.min (n - k) k <= n)%Z ->
  exists B a b c : R,
    q_binomial n k (Some q) = Ok B /\
    q_factorial k (Some q) = Ok a /\
    q_factorial (n - k) (Some q) = Ok b /\
    q_factorial n (Some q) = Ok c /\
    c = B * a * b.
Proof.
  intros Hk Hc Hsel.
  destruct (q_binomial_product_formula n k q Hk Hc Hsel) as [B [HB [HBdef _]]].
  exists B,
    (prod (map (geometric_sum q) (range 1 (k + 1)))),
    (prod (map (geometric_sum q) (range 1 (n - k + 1)))),
    (prod (map (geometric_sum q) (range 1 (n + 1)))).
  rewrite !(q_factorial_nonneg _ (Some q)) by lia. cbn [variable_of].
  split; [exact HB|]. split; [reflexivity|]. split; [reflexivity|].
  split; [reflexivity|].
  rewrite (range_app 1 (n - k + 1) (n + 1)) by lia.
  rewrite map_app, prod_app.
  pose proof (cyclo_factorization n q Hc k Hk) as Hf. cbv zeta in Hf.
  rewrite Hf, <- HBdef. ring.
Qed.

End BinomialFactorial.

(** ** The further properties at concrete inputs *)

Lemma q_int_closed_form_witness :
  exists v : Z,
    @q_int _ ZU.value (ZU.sage false 0) 4 (Some 3) = Ok v /\
    (3 - 1) * v = 3 ^ 4 - 1.
Proof.
  apply (@q_int_closed_form _ ZU.value (ZU.sage false 0) Z_value_laws 4 (Some 3)).
  lia.
Defined.

Lemma q_int_recurrence_witness :
  @q_int _ ZU.value (ZU.sage false 0) 0 (Some 3) = Ok 0 /\
  exists a b : Z,
    @q_int _ ZU.value (ZU.sage false 0) 3 (Some 3) = Ok a /\
    @q_int _ ZU.value (ZU.sage false 0) (3 + 1) (Some 3) = Ok b /\
    b = 1 + 3 * a.
Proof.
  apply (@q_int_recurrence _ ZU.value (ZU.sage false 0) Z_value_laws 3 (Some 3)).
  lia.
Defined.

Lemma q_factorial_recurrence_witness :
  @q_factorial _ ZU.value (ZU.sage false 0) (-2) (Some 3)
  = Raise (ValueError "Argument (%s) must be a nonnegative integer." [-2]) /\
  exists a b : Z,
    @q_factorial _ ZU.value (ZU.sage false 0) 4 (Some 3) = Ok a /\
    @q_int _ ZU.value (ZU.sage false 0) (4 + 1) (Some 3) = Ok b /\
    @q_factorial _ ZU.value (ZU.sage false 0) (4 + 1) (Some 3) = Ok (a * b).
Proof.
  destruct (@q_factorial_recurrence _ ZU.value (ZU.sage false 0) (Some 3))
    as [Hneg [_ Hrec]].
  split.
  - apply Hneg. lia.
  - apply Hrec. lia.
Defined.

Lemma q_factorial_at_one_witness :
  @q_factorial _ ZU.value (ZU.sage false 0) 5 (Some 1) = Ok 120.
Proof. apply (q_factorial_at_one (ZU.sage false 0) 5). lia. Defined.

Lemma q_binomial_total_on_integers_witness :
  @q_binomial _ ZU.value (ZU.sage false 0) (-4) 1 (Some 2)
  = Raise (ValueError "n must be nonnegative" []) /\
  exists v : Z, @q_binomial _ ZU.value (ZU.sage false 0) 6 3 (Some (-1)) = Ok v.
Proof.
  split.
  - apply (q_binomial_total_on_integers (ZU.sage false 0) (-4) 1 (Some 2)). lia.
  - apply (q_binomial_total_on_integers (ZU.sage false 0) 6 3 (Some (-1))). lia.
Defined.

Lemma q_binomial_product_formula_witness :
  exists c : Z,
    @q_binomial _ ZU.value (ZU.sage false 0) 6 2 (Some 2) = Ok c /\
    c = @prod _ ZU.value
          (map (fun d => ZU.cyclotomic_value_int d 2) (cyclo_indices 6 2)) /\
    @numerat _ ZU.value 6 2 2 = @denomin _ ZU.value 2 2 * c.
Proof.
  apply (@q_binomial_product_formula _ ZU.value (ZU.sage false 0) Z_value_laws 6 2 2).
  - lia.
  - apply cyclotomic_contractb_sound. vm_compute. reflexivity.
  - left. reflexivity.
Defined.

Lemma q_binomial_k_one_witness :
  @q_binomial _ ZU.value (ZU.sage false 0) 5 1 (Some 2)
  = @q_int _ ZU.value (ZU.sage false 0) 5 (Some 2).
Proof.
  apply (@q_binomial_k_one _ ZU.value (ZU.sage false 0) Z_value_laws 5 (Some 2)).
  - lia.
  - reflexivity.
  - right. reflexivity.
Defined.

Lemma q_catalan_number_at_minus_one_witness :
  @q_catalan_number _ ZU.value (ZU.sage false 0) 2 (Some (-1))
  = Raise ZeroDivisionError.
Proof. apply (q_catalan_number_at_minus_one (ZU.sage false 0) 2). lia. Defined.

Lemma q_catalan_number_q_binomial_witness :
  exists B i : Z,
    @q_binomial _ ZU.value (ZU.sage false 0) (2 * 3) 3 (Some 2) = Ok B /\
    @q_int _ ZU.value (ZU.sage false 0) (3 + 1) (Some 2) = Ok i /\
    i * 93 = B.
Proof.
  apply (q_catalan_number_q_binomial (ZU.sage false 0) 3 2 93).
  - lia.
  - reflexivity.
  - apply cyclotomic_contractb_sound. vm_compute. reflexivity.
  - vm_compute. reflexivity.
Defined.

Lemma q_jordan_returns_witness :
  (exists v : Z, @q_jordan _ ZU.value [3; 2; 1] 2 = Some (Ok v)) /\
  exists tp : partition,
    Partition (decrement [3; 2; 1] 1) = Ok tp /\ weakly_decreasing tp = true.
Proof.
  destruct (@q_jordan_returns _ ZU.value Z_value_laws 2 eq_refl [3; 2; 1] eq_refl)
    as [Hv Hp].
  split; [exact Hv|].
  apply (Hp 1%nat). simpl. lia.
Defined.

Lemma q_jordan_all_ones_witness :
  @q_jordan _ ZU.value [1; 1; 1; 1; 1] 2 = Some (Ok 1).
Proof.
  apply (@q_jordan_all_ones _ ZU.value Z_value_laws 2 eq_refl 5).
Defined.

Lemma q_binomial_q_factorial_witness :
  exists B a b c : Z,
    @q_binomial _ ZU.value (ZU.sage false 0) 6 2 (Some 2) = Ok B /\
    @q_factorial _ ZU.value (ZU.sage false 0) 2 (Some 2) = Ok a /\
    @q_factorial _ ZU.value (ZU.sage false 0) (6 - 2) (Some 2) = Ok b /\
    @q_factorial _ ZU.value (ZU.sage false 0) 6 (Some 2) = Ok c /\
    c = B * a * b.
Proof.
  apply (@q_binomial_q_factorial _ ZU.value (ZU.sage false 0) Z_value_laws 6 2 2).
  - lia.
  - apply cyclotomic_contractb_sound. vm_compute. reflexivity.
  - left. reflexivity.
Defined.

Lemma qt_catalan_number_coefficient_witness :
  let words := fun n : Z =>
    if n =? 3 then [(3, 0); (2, 1); (1, 1); (1, 2); (0, 3)] else [] in
  qt_catalan_number (Z * Z) words fst snd (-2)
  = Raise (ValueError "Argument (%s) must be a nonnegative integer." [-2]) /\
  exists d : dict,
    qt_catalan_number (Z * Z) words fst snd 3 = Ok d /\
    forall a b : Z,
      dict_get d (a, b) 0
      = Z.of_nat (count (fun dw => (fst dw =? a) && (snd dw =? b)) (words 3)).
Proof.
  intros words.
  split.
  - apply (qt_catalan_number_coefficient (Z * Z) words fst snd (-2)). lia.
  - apply (qt_catalan_number_coefficient (Z * Z) words fst snd 3). lia.
Defined.

Lemma qt_catalan_number_total_witness :
  let words := fun n : Z =>
    if n =? 3 then [(3, 0); (2, 1); (1, 1); (1, 2); (0, 3)] else [] in
  exists d : dict,
    qt_catalan_number (Z * Z) words fst snd 3 = Ok d /\
    NoDup (map fst d) /\ (forall kv, In kv d -> 1 <= snd kv) /\
    dict_total d = Z.of_nat (List.length (words 3)).
Proof.
  intros words.
  apply (qt_catalan_number_total (Z * Z) words fst snd 3). lia.
Defined.
